(** * Return derivation and analytics of the NVDA / QQQ study

    A shallow embedding of [etl_to_csv.py], [etl_yfinance_postgres.py]
    (function [transform_data], identical in both files) and
    [analysis_and_report.py] (the [calculate_*] functions and the
    analytic part of [main]), followed by the three scripts as a whole:
    argument defaults from [config.py], download, CSV file, database load
    and report file.

    Modelling conventions.
    - A float64 cell is a [float]: an exact rational, an infinity or NaN.
      Arithmetic on the special values follows IEEE 754 (x/0 is an infinity
      or NaN, inf - inf is NaN, NaN is absorbing); arithmetic on finite
      values is exact, i.e. rounding and overflow are idealised away.
      Finite results are kept in lowest terms ([Qred]) so that equal numbers
      are equal terms.
    - [np.sqrt] is not rational-valued; it is a parameter [sqrtQ] of the
      analytics section.
    - pandas objects are column-major: a frame is a date index and a list
      of named float columns.
    - Python exceptions are values of [result]; the [try/except Exception]
      of [transform_data] turns every raised exception into [None]. *)

From Stdlib Require Import ZArith QArith Qreduction Qround List Bool Lia Lqa.
From Stdlib Require Import Znumtheory Sorted Permutation.
From Stdlib Require OrderedTypeEx.
From stdpp Require Import gmap strings.
Import ListNotations.

Local Open Scope Q_scope.

(** ** float64, idealised *)

Inductive float : Type :=
| Fin (q : Q)
| PInf
| NInf
| NaN.

Definition fq (q : Q) : float := Fin (Qred q).

Definition isnan (x : float) : bool :=
  match x with NaN => true | _ => false end.

Definition notna (x : float) : bool := negb (isnan x).

Definition isfinite (x : float) : bool :=
  match x with Fin _ => true | _ => false end.

Definition inf_of (c : comparison) : float :=
  match c with Gt => PInf | Lt => NInf | Eq => NaN end.

Definition fadd (x y : float) : float :=
  match x, y with
  | NaN, _ => NaN
  | _, NaN => NaN
  | Fin a, Fin b => fq (a + b)
  | PInf, NInf => NaN
  | NInf, PInf => NaN
  | PInf, _ => PInf
  | _, PInf => PInf
  | NInf, _ => NInf
  | _, NInf => NInf
  end.

Definition fsub (x y : float) : float :=
  match x, y with
  | NaN, _ => NaN
  | _, NaN => NaN
  | Fin a, Fin b => fq (a - b)
  | PInf, PInf => NaN
  | NInf, NInf => NaN
  | PInf, _ => PInf
  | _, NInf => PInf
  | NInf, _ => NInf
  | _, PInf => NInf
  end.

Definition fmul (x y : float) : float :=
  match x, y with
  | NaN, _ => NaN
  | _, NaN => NaN
  | Fin a, Fin b => fq (a * b)
  | Fin a, PInf => inf_of (a ?= 0)
  | PInf, Fin a => inf_of (a ?= 0)
  | Fin a, NInf => inf_of (0 ?= a)
  | NInf, Fin a => inf_of (0 ?= a)
  | PInf, PInf => PInf
  | NInf, NInf => PInf
  | PInf, NInf => NInf
  | NInf, PInf => NInf
  end.

(** Division by a finite zero: the zero is taken as +0.0. *)
Definition fdiv (x y : float) : float :=
  match x, y with
  | NaN, _ => NaN
  | _, NaN => NaN
  | Fin a, Fin b => if Qeq_bool b 0 then inf_of (a ?= 0) else fq (a / b)
  | Fin _, _ => Fin 0
  | PInf, Fin b => if Qle_bool 0 b then PInf else NInf
  | NInf, Fin b => if Qle_bool 0 b then NInf else PInf
  | _, _ => NaN
  end.

Definition of_nat (n : nat) : float := Fin (inject_Z (Z.of_nat n)).

Definition f1 : float := Fin 1.
Definition f252 : float := Fin 252.

Definition fsum (xs : list float) : float := fold_left fadd xs (Fin 0).

(** ** Python exceptions *)

Inductive exn : Type := KeyError | AttributeError | ValueError.

Inductive result (A : Type) : Type :=
| Ok (a : A)
| Raise (e : exn).
Arguments Ok {A} a.
Arguments Raise {A} e.

Definition rbind {A B} (r : result A) (k : A -> result B) : result B :=
  match r with Ok a => k a | Raise e => Raise e end.

(** [try: ... except Exception: return None] *)
Definition try_except {A} (r : result A) : option A :=
  match r with Ok a => Some a | Raise _ => None end.

(** ** Frames *)

Definition date := Z.

(** A wide frame: the row index (dates) and the named columns. *)
Record WideFrame : Type := mkWide {
  index : list date;
  columns : list (string * list float)
}.

Definition column_names (f : WideFrame) : list string := map fst (columns f).

Fixpoint lookup_col (name : string) (cols : list (string * list float))
  : option (list float) :=
  match cols with
  | [] => None
  | (n, c) :: rest => if String.eqb n name then Some c else lookup_col name rest
  end.

(** Every column is as long as the index. *)
Definition wf_frame (f : WideFrame) : Prop :=
  Forall (fun nc => length (snd nc) = length (index f)) (columns f).

(** One row of the long (tidy) output. *)
Record ReturnRecord : Type := mkRecord {
  rec_date : date;
  ticker : string;
  daily_return : float
}.

(** [data['Close']]: a Series when the download is not ticker-keyed, a
    DataFrame with one column per ticker when it is. *)
Inductive CloseData : Type :=
| CloseSeries (idx : list date) (values : list float)
| CloseFrame (f : WideFrame).

(** ** pandas operations used by [transform_data] *)

(** [fillna(method='pad')] on one column: a missing cell takes the last
    valid value before it; leading missing cells stay missing. *)
Fixpoint ffill_from (last : float) (xs : list float) : list float :=
  match xs with
  | [] => []
  | x :: rest =>
      let v := if isnan x then last else x in
      v :: ffill_from v rest
  end.

Definition ffill (xs : list float) : list float := ffill_from NaN xs.

(** [shift(1)]: every cell moves one row down, the first row is NaN. *)
Definition shift1 (xs : list float) : list float :=
  match xs with
  | [] => []
  | _ => NaN :: removelast xs
  end.

Fixpoint zipWith {A B C} (g : A -> B -> C) (xs : list A) (ys : list B) : list C :=
  match xs, ys with
  | x :: xs', y :: ys' => g x y :: zipWith g xs' ys'
  | _, _ => []
  end.

(** [pct_change()] on one column: [data / data.shift(1) - 1], where [data]
    is the column itself or, under the default [fill_method='pad'] of
    pandas 1.x and 2.x, the forward-filled column. *)
Definition pct_change_col (pad : bool) (xs : list float) : list float :=
  let data := if pad then ffill xs else xs in
  zipWith (fun c p => fsub (fdiv c p) f1) data (shift1 data).

Definition pct_change (pad : bool) (f : WideFrame) : WideFrame :=
  mkWide (index f) (map (fun nc => (fst nc, pct_change_col pad (snd nc))) (columns f)).

(** Row [i] has no missing cell. *)
Definition row_complete (cols : list (string * list float)) (i : nat) : bool :=
  forallb (fun nc => notna (nth i (snd nc) NaN)) cols.

(** Positions of the rows kept by [dropna()] (how='any'). *)
Definition kept_rows (f : WideFrame) : list nat :=
  List.filter (row_complete (columns f)) (seq 0 (length (index f))).

Definition take_rows {A} (d : A) (pos : list nat) (xs : list A) : list A :=
  map (fun i => nth i xs d) pos.

Definition dropna (f : WideFrame) : WideFrame :=
  let pos := kept_rows f in
  mkWide (take_rows 0%Z pos (index f))
         (map (fun nc => (fst nc, take_rows NaN pos (snd nc))) (columns f)).

(** [reset_index().melt(id_vars=['Date'], value_vars=..., var_name='ticker',
    value_name='daily_return')]: the value columns are stacked one after the
    other, each against the whole date column.  A value variable that is
    not a column raises [KeyError].  The id column 'Date' is kept apart
    from the float columns, which is where value variables are looked up:
    a ticker is taken not to be called 'Date'.  Value variables are taken
    to be distinct: what a repeated one gives depends on the pandas version
    (recent versions stack its column once), so properties of the stacked
    rows are stated for distinct tickers. *)
Definition melt_col (idx : list date) (name : string) (c : list float)
  : list ReturnRecord :=
  zipWith (fun d v => mkRecord d name v) idx c.

Fixpoint melt_cols (f : WideFrame) (value_vars : list string)
  : result (list ReturnRecord) :=
  match value_vars with
  | [] => Ok []
  | v :: rest =>
      match lookup_col v (columns f) with
      | None => Raise KeyError
      | Some c =>
          rbind (melt_cols f rest) (fun out => Ok (melt_col (index f) v c ++ out))
      end
  end.

Definition melt (f : WideFrame) (value_vars : list string)
  : result (list ReturnRecord) := melt_cols f value_vars.

(** ** [transform_data] *)

(** The object bound to [adj_close] / [daily_returns]: a Series (kept as a
    one-column frame under its name 'Close') or a DataFrame. *)
Inductive PandasObj : Type :=
| Series (f : WideFrame)
| DataFrame (f : WideFrame).

Definition frame_of (o : PandasObj) : WideFrame :=
  match o with Series f => f | DataFrame f => f end.

Definition map_obj (g : WideFrame -> WideFrame) (o : PandasObj) : PandasObj :=
  match o with Series f => Series (g f) | DataFrame f => DataFrame (g f) end.

(** Lines 54-57: [Series.to_frame(name=tickers[0])] for one ticker (a
    DataFrame has no [to_frame]: AttributeError), [data['Close']] as it is
    otherwise. *)
Definition select_close (data : CloseData) (tickers : list string)
  : result PandasObj :=
  if Nat.eqb (length tickers) 1 then
    match data with
    | CloseSeries idx v => Ok (DataFrame (mkWide idx [(hd ""%string tickers, v)]))
    | CloseFrame _ => Raise AttributeError
    end
  else
    match data with
    | CloseSeries idx v => Ok (Series (mkWide idx [("Close"%string, v)]))
    | CloseFrame f => Ok (DataFrame f)
    end.

(** Lines 61-63. *)
Definition choose_value_vars (daily_returns : PandasObj) (tickers : list string)
  : list string :=
  match daily_returns with
  | DataFrame f =>
      if Nat.eqb (length (columns f)) 1 then column_names f else tickers
  | Series _ => tickers
  end.

Definition transform_body (pad : bool) (data : CloseData) (tickers : list string)
  : result (list ReturnRecord) :=
  rbind (select_close data tickers) (fun adj_close =>
  let daily_returns := map_obj (fun f => dropna (pct_change pad f)) adj_close in
  let value_vars := choose_value_vars daily_returns tickers in
  melt (frame_of daily_returns) value_vars).

(** [transform_data(data, tickers)].  [pad] is the pandas default for
    [pct_change]'s [fill_method]: [true] for 'pad', [false] for none. *)
Definition transform_data (pad : bool) (data : CloseData) (tickers : list string)
  : option (list ReturnRecord) :=
  try_except (transform_body pad data tickers).

(** Views of the long output. *)
Definition records_of (t : string) (out : list ReturnRecord) : list ReturnRecord :=
  List.filter (fun r => String.eqb (ticker r) t) out.

Definition dates_of (t : string) (out : list ReturnRecord) : list date :=
  map rec_date (records_of t out).


(** ** The long frame read by the report *)

(** Sorted, duplicate-free keys, as pandas builds group keys and pivot axes. *)
Fixpoint insert_key {A} (cmp : A -> A -> comparison) (k : A) (ks : list A) : list A :=
  match ks with
  | [] => [k]
  | h :: rest =>
      match cmp k h with
      | Lt => k :: ks
      | Eq => ks
      | Gt => h :: insert_key cmp k rest
      end
  end.

Definition sorted_keys {A} (cmp : A -> A -> comparison) (ks : list A) : list A :=
  fold_right (insert_key cmp) [] ks.

Definition tickers_of (rows : list ReturnRecord) : list string :=
  sorted_keys String.compare (map ticker rows).

Definition dates_in (rows : list ReturnRecord) : list date :=
  sorted_keys Z.compare (map rec_date rows).

(** [df.groupby('ticker')['daily_return']]: the returns of one group, in
    row order. *)
Definition group_values (t : string) (rows : list ReturnRecord) : list float :=
  map daily_return (records_of t rows).

Definition groupby_agg {A} (agg : list float -> A) (rows : list ReturnRecord)
  : list (string * A) :=
  map (fun t => (t, agg (group_values t rows))) (tickers_of rows).

Fixpoint lookup_key {A} (t : string) (s : list (string * A)) : option A :=
  match s with
  | [] => None
  | (k, v) :: rest => if String.eqb k t then Some v else lookup_key t rest
  end.

(** Reductions skip missing values. *)
Definition valid (xs : list float) : list float := List.filter notna xs.

Definition mean (xs : list float) : float :=
  let v := valid xs in fdiv (fsum v) (of_nat (length v)).

Definition sq_dev (m x : float) : float := fmul (fsub x m) (fsub x m).

(** Sample variance (ddof = 1): NaN unless there are two observations. *)
Definition var (xs : list float) : float :=
  let v := valid xs in
  if Nat.leb (length v) 1 then NaN
  else fdiv (fsum (map (sq_dev (mean v)) v)) (of_nat (length v - 1)).

(** Running product that skips missing cells ([cumprod], skipna=True): a
    missing cell stays missing and leaves the product as it was. *)
Fixpoint cumprod_from (acc : option float) (xs : list float) : list float :=
  match xs with
  | [] => []
  | x :: rest =>
      if isnan x then NaN :: cumprod_from acc rest
      else
        let p := match acc with None => x | Some a => fmul a x end in
        p :: cumprod_from (Some p) rest
  end.

Definition cumprod (xs : list float) : list float := cumprod_from None xs.

(** [(1 + s).cumprod() - 1] *)
Definition cumulative (xs : list float) : list float :=
  map (fun p => fsub p f1) (cumprod (map (fadd f1) xs)).

(** [df.pivot(index='date', columns='ticker', values='daily_return')] *)
Definition same_cell (d : date) (t : string) (r : ReturnRecord) : bool :=
  Z.eqb (rec_date r) d && String.eqb (ticker r) t.

Definition cell (d : date) (t : string) (rows : list ReturnRecord) : float :=
  match find (same_cell d t) rows with
  | Some r => daily_return r
  | None => NaN
  end.

Fixpoint has_duplicate_cell (rows : list ReturnRecord) : bool :=
  match rows with
  | [] => false
  | r :: rest =>
      existsb (same_cell (rec_date r) (ticker r)) rest || has_duplicate_cell rest
  end.

Definition pivot (rows : list ReturnRecord) : result WideFrame :=
  if has_duplicate_cell rows then Raise ValueError
  else
    let ds := dates_in rows in
    Ok (mkWide ds (map (fun t => (t, map (fun d => cell d t rows) ds)) (tickers_of rows))).

Definition map_columns (g : list float -> list float) (f : WideFrame) : WideFrame :=
  mkWide (index f) (map (fun nc => (fst nc, g (snd nc))) (columns f)).

(** Line 116 of [main]: [(1 + df_pivot).cumprod() - 1]. *)
Definition df_cumulative (df_pivot : WideFrame) : WideFrame :=
  map_columns cumulative df_pivot.

(** The long frame: the three columns of the CSV as rows, and whatever float
    columns have been assigned to it since. *)
Record LongFrame : Type := mkLong {
  rows : list ReturnRecord;
  extra : gmap string (list float)
}.

(** Frames live in a store; a Python variable holds a reference. *)
Abbreviation loc := positive (only parsing).
Abbreviation heap := (gmap positive LongFrame) (only parsing).

(** State passing over the store; [None] is a dangling reference. *)
Definition M (A : Type) : Type := heap -> option (A * heap).

#[global] Instance M_ret : MRet M := fun A a h => Some (a, h).

#[global] Instance M_bind : MBind M := fun A B k m h =>
  match m h with
  | Some (a, h') => k a h'
  | None => None
  end.

Definition deref (l : loc) : M LongFrame :=
  fun h => match h !! l with Some f => Some (f, h) | None => None end.

(** [df[name] = values] *)
Definition setitem (l : loc) (name : string) (values : list float) : M unit :=
  fun h => match h !! l with
           | Some f => Some (tt, <[l := mkLong (rows f) (<[name := values]> (extra f))]> h)
           | None => None
           end.

(** [calculate_cumulative_returns(df)], lines 14-17: the product runs down
    the whole [daily_return] column; the frame passed in gets the new
    column and is the value returned. *)
Definition calculate_cumulative_returns (df : loc) : M loc :=
  f ← deref df;
  setitem df "cumulative_return" (cumulative (map daily_return (rows f)));;
  mret df.

(** The descriptive table of one group. *)
Record Describe : Type := mkDescribe {
  d_count : nat;
  d_mean : float;
  d_std : float;
  d_min : float;
  d_q25 : float;
  d_q50 : float;
  d_q75 : float;
  d_max : float
}.

(** Order on cells used to sort a series for its quantiles. *)
Definition fle (x y : float) : bool :=
  match x, y with
  | NInf, _ => true
  | _, PInf => true
  | Fin a, Fin b => Qle_bool a b
  | _, _ => false
  end.

Fixpoint insert_float (x : float) (xs : list float) : list float :=
  match xs with
  | [] => [x]
  | h :: rest => if fle x h then x :: xs else h :: insert_float x rest
  end.

Definition sort_floats (xs : list float) : list float :=
  fold_right insert_float [] xs.

(** Quantile by linear interpolation between the two nearest ranks [a]
    and [b], as numpy computes it: [a + (b - a) * t], and from [t = 1/2] on
    [b - (b - a) * (1 - t)].  The two agree on finite cells and differ next
    to an infinity. *)
Definition lerp (a b : float) (t : Q) : float :=
  if Qle_bool (1 # 2) t
  then fsub b (fmul (fsub b a) (fq (1 - t)))
  else fadd a (fmul (fsub b a) (fq t)).

Definition quantile (p : Q) (xs : list float) : float :=
  let s := sort_floats (valid xs) in
  match s with
  | [] => NaN
  | _ =>
      let pos := p * inject_Z (Z.of_nat (length s - 1)) in
      let lo := Z.to_nat (Qfloor pos) in
      let frac := pos - inject_Z (Qfloor pos) in
      let a := nth lo s NaN in
      let b := nth (Nat.min (S lo) (length s - 1)) s NaN in
      lerp a b frac
  end.

Definition fmin_list (xs : list float) : float :=
  match sort_floats (valid xs) with [] => NaN | h :: _ => h end.

Definition fmax_list (xs : list float) : float :=
  List.last (sort_floats (valid xs)) NaN.

(** ** Statistics that need a square root *)

Section Analytics.

(** [np.sqrt] on the finite non-negative numbers. *)
Variable sqrtQ : Q -> Q.

Definition fsqrt (x : float) : float :=
  match x with
  | Fin a => if Qle_bool 0 a then fq (sqrtQ a) else NaN
  | PInf => PInf
  | _ => NaN
  end.

(** [Series.std()]: sample standard deviation. *)
Definition std (xs : list float) : float := fsqrt (var xs).

Definition describe (xs : list float) : Describe :=
  mkDescribe (length (valid xs)) (mean xs) (std xs) (fmin_list xs)
             (quantile (1 # 4) xs) (quantile (1 # 2) xs) (quantile (3 # 4) xs)
             (fmax_list xs).

(** Arithmetic of two Series aligned on their index. *)
Definition series_binop (g : float -> float -> float) (a b : list (string * float))
  : list (string * float) :=
  map (fun kx => (fst kx, g (snd kx) (default NaN (lookup_key (fst kx) b)))) a.

Definition series_map (g : float -> float) (a : list (string * float))
  : list (string * float) :=
  map (fun kx => (fst kx, g (snd kx))) a.

(** The bodies of the [calculate_*] functions on the rows of the frame. *)
Definition statistics_of (rows : list ReturnRecord) : list (string * Describe) :=
  groupby_agg describe rows.

Definition annualized_volatility_of (rows : list ReturnRecord)
  : list (string * float) :=
  series_map (fun s => fmul s (fsqrt f252)) (groupby_agg std rows).

Definition sharpe_ratio_of (rows : list ReturnRecord) (risk_free_rate : float)
  : list (string * float) :=
  let mean_return := series_map (fun m => fmul m f252) (groupby_agg mean rows) in
  let std_dev := series_map (fun s => fmul s (fsqrt f252)) (groupby_agg std rows) in
  series_binop fdiv (series_map (fun m => fsub m risk_free_rate) mean_return) std_dev.

(** [calculate_statistics(df)], lines 9-12. *)
Definition calculate_statistics (df : loc) : M (list (string * Describe)) :=
  f ← deref df;
  mret (statistics_of (rows f)).

(** [calculate_annualized_volatility(df)], lines 19-22. *)
Definition calculate_annualized_volatility (df : loc) : M (list (string * float)) :=
  f ← deref df;
  mret (annualized_volatility_of (rows f)).

(** [calculate_sharpe_ratio(df, risk_free_rate=0.0)], lines 24-29; [None]
    is the omitted argument. *)
Definition calculate_sharpe_ratio (df : loc) (risk_free_rate : option float)
  : M (list (string * float)) :=
  f ← deref df;
  mret (sharpe_ratio_of (rows f) (default (Fin 0) risk_free_rate)).

(** Pearson correlation of two columns over the rows where both are finite
    (pairwise-complete, min_periods = 1); NaN when the divisor is zero. *)
Definition both_finite (p : float * float) : bool :=
  isfinite (fst p) && isfinite (snd p).

Definition paired (x y : list float) : list (float * float) :=
  List.filter both_finite (combine x y).

Definition is_zero (x : float) : bool :=
  match x with Fin a => Qeq_bool a 0 | _ => false end.

Definition pearson_pairs (ps : list (float * float)) : float :=
  let n := length ps in
  if Nat.ltb n 1 then NaN
  else
    let mx := fdiv (fsum (map fst ps)) (of_nat n) in
    let my := fdiv (fsum (map snd ps)) (of_nat n) in
    let ssx := fsum (map (fun p => sq_dev mx (fst p)) ps) in
    let ssy := fsum (map (fun p => sq_dev my (snd p)) ps) in
    let covxy := fsum (map (fun p => fmul (fsub (fst p) mx) (fsub (snd p) my)) ps) in
    let divisor := fsqrt (fmul ssx ssy) in
    if is_zero divisor then NaN else fdiv covxy divisor.

Definition pearson (x y : list float) : float := pearson_pairs (paired x y).

(** [DataFrame.corr()]: each pair is computed once, for column [xi] against
    a column [yi <= xi], and written to both [xi, yi] and [yi, xi]. *)
Definition corr_entry (cols : list (string * list float)) (i j : nat) : float :=
  let xi := Nat.max i j in
  let yi := Nat.min i j in
  pearson (snd (nth xi cols (""%string, []))) (snd (nth yi cols (""%string, []))).

Definition corr (f : WideFrame) : list (string * list float) :=
  let k := length (columns f) in
  map (fun i => (fst (nth i (columns f) (""%string, [])),
                 map (corr_entry (columns f) i) (seq 0 k)))
      (seq 0 k).

(** [calculate_correlation(df_pivot)], lines 31-33. *)
Definition calculate_correlation (df_pivot : WideFrame) : list (string * list float) :=
  corr df_pivot.

(** [rolling(window).std()] on one column: the window at row [i] is the
    last [window] rows up to [i]; infinities count as missing; the result is
    missing unless the window holds [window] observations (min_periods
    defaults to the window length). *)
Definition window_at (window i : nat) (xs : list float) : list float :=
  skipn (S i - window) (firstn (S i) xs).

Definition rolling_std_at (window : nat) (xs : list float) (i : nat) : float :=
  let obs := List.filter isfinite (window_at window i xs) in
  if Nat.leb window (length obs) then std obs else NaN.

Definition rolling_std (window : nat) (xs : list float) : list float :=
  map (rolling_std_at window xs) (seq 0 (length xs)).

(** Line 124 of [main]: [df_pivot.rolling(window=30).std() * np.sqrt(252)]. *)
Definition rolling_volatility (window : nat) (df_pivot : WideFrame) : WideFrame :=
  map_columns (fun c => map (fun s => fmul s (fsqrt f252)) (rolling_std window c)) df_pivot.

Definition rolling_vol (df_pivot : WideFrame) : WideFrame :=
  rolling_volatility 30 df_pivot.

(** The tables and chart series [main] hands to the report (lines 105-128);
    line 115 is overwritten by line 116 and is left out. *)
Record Report : Type := mkReport {
  r_stats : list (string * Describe);
  r_volatility : list (string * float);
  r_sharpe_ratio : list (string * float);
  r_correlation_matrix : list (string * list float);
  r_cumulative : WideFrame;
  r_rolling_vol : WideFrame
}.

Definition main (df : loc) : M (result Report) :=
  f ← deref df;
  match pivot (rows f) with
  | Raise e => mret (Raise e)
  | Ok df_pivot =>
      stats ← calculate_statistics df;
      volatility ← calculate_annualized_volatility df;
      sharpe_ratio ← calculate_sharpe_ratio df None;
      mret (Ok (mkReport stats volatility sharpe_ratio
                         (calculate_correlation df_pivot)
                         (df_cumulative df_pivot)
                         (rolling_vol df_pivot)))
  end.

(** The own-sequence reading of rolling volatility: entry [i] of a gap-free
    series is the scaled standard deviation of its last [window] entries,
    and missing before there are that many. *)
Definition rolling_volatility_spec (window : nat) (xs : list float) : list float :=
  map (fun i => if Nat.leb window (S i)
                then fmul (std (window_at window i xs)) (fsqrt f252)
                else NaN)
      (seq 0 (length xs)).

End Analytics.

(** A computable square root on the rationals for running the model: exact
    on squares of rationals, rounded down to a multiple of 1/den otherwise. *)
Definition Qsqrt (x : Q) : Q :=
  let r := Qred x in
  Z.sqrt (Qnum r * QDen r) # Qden r.


(** The frame bound to [daily_returns] and the value variables melted. *)
Definition returns_frame (pad : bool) (adj_close : PandasObj) : WideFrame :=
  dropna (pct_change pad (frame_of adj_close)).

Definition emitted_tickers (pad : bool) (adj_close : PandasObj) (tickers : list string)
  : list string :=
  choose_value_vars (map_obj (fun f => dropna (pct_change pad f)) adj_close) tickers.

(** ** Views used to state the properties of [transform_data] *)

Definition close_index (data : CloseData) : list date :=
  match data with CloseSeries idx _ => idx | CloseFrame f => index f end.

(** The table has the shape the request needs: a bare series for one
    ticker, otherwise a ticker-keyed frame that has a single column or a
    column for every requested ticker. *)
Definition shape_matches (data : CloseData) (tickers : list string) : Prop :=
  match data with
  | CloseSeries _ _ => length tickers = 1%nat
  | CloseFrame f =>
      length tickers <> 1%nat /\
      (length (columns f) = 1%nat \/ incl tickers (column_names f))
  end.

(** The price column of a ticker and the number of dates with a price. *)
Definition price_column (t : string) (data : CloseData) : list float :=
  match data with
  | CloseSeries _ v => v
  | CloseFrame f => default [] (lookup_col t (columns f))
  end.

Definition defined_prices (t : string) (data : CloseData) : nat :=
  length (valid (price_column t data)).

(** A usable price: finite and not zero. *)
Definition is_price (x : float) : bool :=
  match x with Fin a => negb (Qeq_bool a 0) | _ => false end.

(** Every column has a price on every date of the index. *)
Definition full_prices (f : WideFrame) : Prop :=
  Forall (fun nc => forallb is_price (snd nc) = true /\
                    length (snd nc) = length (index f)) (columns f).

(** [c / p - 1] down a column, [p] being the cell of the row before. *)
Fixpoint pct_from (p : float) (xs : list float) : list float :=
  match xs with
  | [] => []
  | x :: rest => fsub (fdiv x p) f1 :: pct_from x rest
  end.

(** ** Rational arithmetic and views used to state the analytics properties *)

Definition Qsum (l : list Q) : Q := fold_right Qplus 0 l.

Definition Qcount (l : list Q) : Q := inject_Z (Z.of_nat (length l)).

(** The textbook mean and sample (N-1) variance of a rational series. *)
Definition Qmean (l : list Q) : Q := Qsum l / Qcount l.

Definition Qsq (x : Q) : Q := x * x.

Definition Qvar (l : list Q) : Q :=
  Qsum (map (fun x => Qsq (x - Qmean l)) l) / inject_Z (Z.of_nat (length l - 1)).

(** The finite cells of a column, as rationals. *)
Definition finite_values (c : list float) : list Q :=
  flat_map (fun x => match x with Fin a => [a] | _ => [] end) c.

(** Sum of squared deviations from the mean. *)
Definition Qss (l : list Q) : Q := Qsum (map (fun x => Qsq (x - Qmean l)) l).

(** The dates on which two tickers both have a finite return, with the
    two returns. *)
Definition common_observations (t1 t2 : string) (rows : list ReturnRecord)
  : list (float * float) :=
  map (fun d => (cell d t1 rows, cell d t2 rows))
      (List.filter (fun d => isfinite (cell d t1 rows) && isfinite (cell d t2 rows))
                   (dates_in rows)).

(** [x] to the power [n + 1], multiplying from the left as [cumprod] does. *)
Fixpoint fpow_succ (x : float) (n : nat) : float :=
  match n with
  | O => x
  | S k => fmul (fpow_succ x k) x
  end.

(** [p * x^(k+1)], multiplying from the left. *)
Fixpoint fmul_iter (p x : float) (k : nat) : float :=
  match k with
  | O => fmul p x
  | S k' => fmul (fmul_iter p x k') x
  end.

(** [byTicker(t)]: the returns of one ticker, by ascending date. *)
Definition by_ticker (t : string) (rows : list ReturnRecord) : list (date * float) :=
  map (fun d => (d, cell d t rows))
      (List.filter (fun d => existsb (same_cell d t) rows) (dates_in rows)).

Fixpoint position (d : date) (idx : list date) : option nat :=
  match idx with
  | [] => None
  | h :: rest => if Z.eqb h d then Some O else option_map S (position d rest)
  end.

(** The cell of a wide frame at a date and a ticker. *)
Definition lookup_cell (f : WideFrame) (d : date) (t : string) : float :=
  match lookup_col t (columns f), position d (index f) with
  | Some c, Some i => nth i c NaN
  | _, _ => NaN
  end.

(** The pairs kept by [paired] are finite on both sides. *)
Definition fin_pair (ab : Q * Q) : float * float := (Fin (fst ab), Fin (snd ab)).

(** ** Worked inputs *)

Definition fl (n d : Z) : float := fq (n # Z.to_pos d).

(** A has a price on three dates, B is listed from the second date on. *)
Definition prices_late_listing : CloseData :=
  CloseFrame (mkWide [1; 2; 3]%Z
    [("A"%string, [fl 100 1; fl 110 1; fl 99 1]);
     ("B"%string, [NaN; fl 50 1; fl 55 1])]).

(** Both tickers priced on every date. *)
Definition prices_full : WideFrame :=
  mkWide [1; 2; 3]%Z
    [("A"%string, [fl 100 1; fl 110 1; fl 99 1]);
     ("B"%string, [fl 50 1; fl 50 1; fl 55 1])].

Definition prices_single : WideFrame :=
  mkWide [1; 2; 3]%Z [("A"%string, [fl 100 1; fl 110 1; fl 99 1])].

Definition prices_no_rows : CloseData :=
  CloseFrame (mkWide [] [("A"%string, []); ("B"%string, [])]).

(** Two tickers on two dates, in the order [transform_data] emits them. *)
Definition returns_two_tickers : list ReturnRecord :=
  [mkRecord 1%Z "A" (fl 1 10); mkRecord 2%Z "A" (fl (-1) 10);
   mkRecord 1%Z "B" (fl 1 2); mkRecord 2%Z "B" (fl 0 1)].

(** A is constant, B is not. *)
Definition returns_constant_A : list ReturnRecord :=
  [mkRecord 1%Z "A" (fl 1 10); mkRecord 2%Z "A" (fl 1 10); mkRecord 3%Z "A" (fl 1 10);
   mkRecord 1%Z "B" (fl 1 10); mkRecord 2%Z "B" (fl 2 10); mkRecord 3%Z "B" (fl 4 10)].

(** 31 dates; B has a return on each, A on all but the second. *)
Definition returns_with_gap : list ReturnRecord :=
  map (fun n => mkRecord (Z.of_nat n) "A" (fl (Z.of_nat (n mod 5)) 100))
      (1%nat :: seq 3 29) ++
  map (fun n => mkRecord (Z.of_nat n) "B" (fl (Z.of_nat (n mod 3)) 100))
      (seq 1 31).

Definition store_of (rows : list ReturnRecord) : gmap positive LongFrame :=
  {[ 1%positive := mkLong rows ∅ ]}.

(** ** Views used to state further properties *)

(** The cell a record fills in the pivot. *)
Definition cell_key (r : ReturnRecord) : date * string := (rec_date r, ticker r).

Definition string_lt (a b : string) : Prop := String.compare a b = Lt.

(** Simple returns of a rational price series that starts at [p]. *)
Fixpoint Qreturns (p : Q) (ps : list Q) : list Q :=
  match ps with
  | [] => []
  | x :: rest => (x / p - 1) :: Qreturns x rest
  end.

(** The inputs on which [transform_data] raises nothing: one ticker and a
    bare series; several tickers and a ticker-keyed frame with one column or
    with a column for each of them; or a bare series whose name 'Close' is
    all that is requested. *)
Definition transform_ok (data : CloseData) (tickers : list string) : Prop :=
  match data with
  | CloseSeries _ _ => length tickers = 1%nat \/ incl tickers ["Close"%string]
  | CloseFrame f =>
      length tickers <> 1%nat /\
      (length (columns f) = 1%nat \/ incl tickers (column_names f))
  end.

(** ** The scripts and the world they act on

    The three scripts are modelled as functions on a [World]: the files
    they read and write and the tables of the database.  What lies outside
    the repository is a parameter: [yf_download] is [yf.download],
    [can_write] tells whether a path can be opened for writing, [accepts]
    whether the database server accepts a connection URI.  A CSV file is
    represented by the table written to it and an HTML report by the tables
    and series it renders; console messages are left out.  A command line is
    given as the options argparse has recognised ([None]: option absent).
    Tables of the database have the columns that
    [create_table_if_not_exists] declares. *)

Module config.

Definition TICKERS : list string := ["NVDA"; "QQQ"]%string.
Definition START_DATE : string := "2019-01-01".
Definition END_DATE : string := "2024-01-01".
Definition DB_HOST : string :=
  "analisis-financiero-db.cli6emcs8771.us-east-2.rds.amazonaws.com".
Definition DB_NAME : string := "analisis_financiero".
Definition DB_USER : string := "postgres".
Definition DB_PASSWORD : string := "12345678".
Definition TABLE_NAME : string := "rendimientos_diarios".
Definition SSL_MODE : string := "require".

End config.

(** A row of the table: [id SERIAL PRIMARY KEY] and the three columns. *)
Record StoredRow : Type := mkStored {
  row_id : nat;
  row_record : ReturnRecord
}.

(** A table and the next value of its id sequence. *)
Record Table : Type := mkTable {
  stored : list StoredRow;
  next_id : nat
}.

Inductive FileContent : Type :=
| CsvFile (table : list ReturnRecord)
| HtmlFile (report : Report).

Record World : Type := mkWorld {
  files : gmap string FileContent;
  database : gmap string Table
}.

Inductive db_error : Type := OperationalError | DataError.

(** The options of both command lines. *)
Record CommandLine : Type := mkCommandLine {
  cl_tickers : option (list string);
  cl_start_date : option string;
  cl_end_date : option string;
  cl_db_host : option string;
  cl_db_name : option string;
  cl_db_user : option string;
  cl_db_password : option string;
  cl_table_name : option string;
  cl_sslmode : option string
}.

(** [data.empty]: one of the two axes has length 0. *)
Definition data_empty (data : CloseData) : bool :=
  match data with
  | CloseSeries idx _ => match idx with [] => true | _ => false end
  | CloseFrame f =>
      match index f, columns f with
      | [], _ => true
      | _, [] => true
      | _, _ => false
      end
  end.

(** [extract_data], identical in both ETL scripts: [None] when the download
    raises or is empty. *)
Definition extract_data
    (yf_download : list string -> string -> string -> result CloseData)
    (tickers : list string) (start_date end_date : string) : option CloseData :=
  match yf_download tickers start_date end_date with
  | Raise _ => None
  | Ok data => if data_empty data then None else Some data
  end.

Module etl_to_csv.

Section Script.

Variable pad : bool.
Variable yf_download : list string -> string -> string -> result CloseData.
Variable can_write : string -> bool.

Record Args : Type := mkArgs {
  tickers : list string;
  start_date : string;
  end_date : string
}.

(** [get_args], lines 9-30: an absent option takes its value in [config]. *)
Definition get_args (cl : CommandLine) : Args :=
  mkArgs (default config.TICKERS (cl_tickers cl))
         (default config.START_DATE (cl_start_date cl))
         (default config.END_DATE (cl_end_date cl)).

(** [save_to_csv], lines 79-88: the exception of a failed write is caught. *)
Definition save_to_csv (df : list ReturnRecord) (filename : string) (w : World)
  : World :=
  if can_write filename
  then mkWorld (<[filename := CsvFile df]> (files w)) (database w)
  else w.

(** [main], lines 90-101. *)
Definition main (cl : CommandLine) (w : World) : World :=
  let args := get_args cl in
  match extract_data yf_download (tickers args) (start_date args) (end_date args) with
  | Some data =>
      match transform_data pad data (tickers args) with
      | Some transformed_data =>
          save_to_csv transformed_data "rendimientos_diarios.csv" w
      | None => w
      end
  | None => w
  end.

End Script.

End etl_to_csv.

Module etl_yfinance_postgres.

Section Script.

Variable pad : bool.
Variable yf_download : list string -> string -> string -> result CloseData.
Variable accepts : string -> bool.

Record Args : Type := mkArgs {
  tickers : list string;
  start_date : string;
  end_date : string;
  db_host : string;
  db_name : string;
  db_user : string;
  db_password : string;
  table_name : string;
  sslmode : string
}.

(** [os.getenv(name, fallback)] *)
Definition getenv (env : gmap string string) (name fallback : string) : string :=
  default fallback (env !! name).

(** [get_args], lines 10-61: the connection options fall back on the
    environment and then on [config]. *)
Definition get_args (cl : CommandLine) (env : gmap string string) : Args :=
  mkArgs (default config.TICKERS (cl_tickers cl))
         (default config.START_DATE (cl_start_date cl))
         (default config.END_DATE (cl_end_date cl))
         (default (getenv env "POSTGRES_HOST" config.DB_HOST) (cl_db_host cl))
         (default (getenv env "POSTGRES_DB" config.DB_NAME) (cl_db_name cl))
         (default (getenv env "POSTGRES_USER" config.DB_USER) (cl_db_user cl))
         (default (getenv env "POSTGRES_PASSWORD" config.DB_PASSWORD) (cl_db_password cl))
         (default config.TABLE_NAME (cl_table_name cl))
         (default config.SSL_MODE (cl_sslmode cl)).

(** Line 167. *)
Definition db_uri (user password host name mode : string) : string :=
  ("postgresql://" ++ user ++ ":" ++ password ++ "@" ++ host ++ ":5432/"
     ++ name ++ "?sslmode=" ++ mode)%string.

(** A table name that the quoted identifier of lines 132 and 178 denotes
    as it is: not empty, without a double quote, at most 63 characters. *)
Definition plain_identifier (name : string) : bool :=
  negb (String.eqb name "") &&
  forallb (fun c => negb (Ascii.eqb c (Ascii.ascii_of_nat 34)))
          (String.list_ascii_of_string name) &&
  Nat.leb (String.length name) 63.

(** [CREATE TABLE IF NOT EXISTS]: an existing table is left alone. *)
Definition create_table (name : string) (db : gmap string Table) : gmap string Table :=
  match db !! name with
  | Some _ => db
  | None => <[name := mkTable [] 1]> db
  end.

(** [create_table_if_not_exists], lines 127-146: the exception is reported
    and raised again. *)
Definition create_table_if_not_exists (uri name : string) (db : gmap string Table)
  : db_error + gmap string Table :=
  if accepts uri then inr (create_table name db) else inl OperationalError.

(** [TRUNCATE TABLE ... RESTART IDENTITY] *)
Definition truncate_restart (name : string) (db : gmap string Table)
  : gmap string Table :=
  <[name := mkTable [] 1]> db.

Fixpoint number_rows (first : nat) (df : list ReturnRecord) : list StoredRow :=
  match df with
  | [] => []
  | r :: rest => mkStored first r :: number_rows (S first) rest
  end.

(** [ticker VARCHAR(10)] *)
Definition fits_varchar10 (r : ReturnRecord) : bool :=
  Nat.leb (String.length (ticker r)) 10.

(** [df.to_sql(table_name, connection, if_exists='append', index=False)]:
    the rows take the next ids; a ticker that does not fit its column
    aborts the statement. *)
Definition to_sql_append (df : list ReturnRecord) (name : string)
    (db : gmap string Table) : db_error + gmap string Table :=
  match db !! name with
  | None => inl OperationalError
  | Some t =>
      if forallb fits_varchar10 df
      then inr (<[name := mkTable (stored t ++ number_rows (next_id t) df)
                                  (next_id t + length df)]> db)
      else inl DataError
  end.

(** [load_data], lines 148-192.  Truncation and insertion share one
    transaction: when the insertion fails both are rolled back, while the
    table created before stays. *)
Definition load_data (df : list ReturnRecord)
    (host name user password table mode : string) (w : World) : World :=
  if String.eqb password "" then w
  else
    let uri := db_uri user password host name mode in
    match create_table_if_not_exists uri table (database w) with
    | inl _ => w
    | inr created =>
        if accepts uri then
          match to_sql_append df table (truncate_restart table created) with
          | inr loaded => mkWorld (files w) loaded
          | inl _ => mkWorld (files w) created
          end
        else mkWorld (files w) created
    end.

(** [main], lines 194-213. *)
Definition main (cl : CommandLine) (env : gmap string string) (w : World) : World :=
  let args := get_args cl env in
  match extract_data yf_download (tickers args) (start_date args) (end_date args) with
  | Some data =>
      match transform_data pad data (tickers args) with
      | Some transformed_data =>
          load_data transformed_data (db_host args) (db_name args) (db_user args)
                    (db_password args) (table_name args) (sslmode args) w
      | None => w
      end
  | None => w
  end.

End Script.

End etl_yfinance_postgres.

(** A sufficient condition for [pd.read_csv] to give a ticker back as the
    string [to_csv] wrote: it starts with a letter, is made of letters,
    digits and the signs . - ^ = (so it is neither quoted nor read as a
    number), and is not, in any letter case, one of the words read as a
    missing value, a boolean or an infinity. *)
Definition to_lower (c : Ascii.ascii) : Ascii.ascii :=
  let n := Ascii.nat_of_ascii c in
  if Nat.leb 65 n && Nat.leb n 90 then Ascii.ascii_of_nat (n + 32) else c.

Fixpoint lower (s : string) : string :=
  match s with
  | EmptyString => EmptyString
  | String c rest => String (to_lower c) (lower rest)
  end.

Definition is_letter (c : Ascii.ascii) : bool :=
  let n := Ascii.nat_of_ascii (to_lower c) in Nat.leb 97 n && Nat.leb n 122.

Definition is_digit (c : Ascii.ascii) : bool :=
  let n := Ascii.nat_of_ascii c in Nat.leb 48 n && Nat.leb n 57.

Definition ticker_char (c : Ascii.ascii) : bool :=
  is_letter c || is_digit c ||
  existsb (Ascii.eqb c) (String.list_ascii_of_string ".-^=").

Definition csv_reserved : list string :=
  ["na"; "nan"; "null"; "none"; "true"; "false"; "inf"; "infinity"]%string.

Definition csv_plain_ticker (t : string) : bool :=
  match t with
  | EmptyString => false
  | String c _ => is_letter c
  end &&
  forallb ticker_char (String.list_ascii_of_string t) &&
  negb (existsb (String.eqb (lower t)) csv_reserved).

Module analysis_and_report.

Section Script.

Variable sqrtQ : Q -> Q.
Variable can_write : string -> bool.

(** How a run of the script ends: normally, or with an exception that
    nothing handles. *)
Inductive Outcome : Type :=
| Completed (w : World)
| Uncaught (e : exn)
| UncaughtOSError.

(** [generate_html_report], lines 51-95: the page is written to
    [output_path]; a path that cannot be opened raises. *)
Definition generate_html_report (report : Report) (output_path : string) (w : World)
  : Outcome :=
  if can_write output_path
  then Completed (mkWorld (<[output_path := HtmlFile report]> (files w)) (database w))
  else UncaughtOSError.

(** The script's [main], lines 97-132: only the missing CSV is handled;
    a file that is not a table with a 'date' column makes [read_csv] raise
    ValueError.  The table read is taken to be the table the file holds,
    which is what [read_csv] does when every ticker is a
    [csv_plain_ticker]; the properties of [run] are stated for such
    tables. *)
Definition run (w : World) : Outcome :=
  match files w !! "rendimientos_diarios.csv"%string with
  | None => Completed w
  | Some (HtmlFile _) => Uncaught ValueError
  | Some (CsvFile table) =>
      match main sqrtQ 1%positive {[ 1%positive := mkLong table ∅ ]} with
      | Some (Ok report, _) =>
          generate_html_report report "/home/fo5/Escritorio/analisis_nvda_qqq.html" w
      | Some (Raise e, _) => Uncaught e
      | None => Completed w
      end
  end.

End Script.

End analysis_and_report.

(** ** Worked inputs for the scripts *)

(** One ticker on two dates, in date order. *)
Definition returns_one_ticker : list ReturnRecord :=
  [mkRecord 1%Z "A" (fl 1 10); mkRecord 2%Z "A" (fl (-1) 10)].

(** B has no return on the first date. *)
Definition returns_late_B : list ReturnRecord :=
  [mkRecord 1%Z "A" (fl 1 10); mkRecord 2%Z "A" (fl (-1) 10);
   mkRecord 2%Z "B" (fl 1 2)].

(** A ticker that does not fit VARCHAR(10). *)
Definition returns_long_ticker : list ReturnRecord :=
  [mkRecord 1%Z "LONGTICKER01" (fl 1 10)].

(** A download that answers every request with [prices_full]. *)
Definition download_prices_full (tickers : list string) (start_date end_date : string)
  : result CloseData :=
  Ok (CloseFrame prices_full).

(** Every path can be written, every connection is accepted. *)
Definition permissive (s : string) : bool := true.

(** [--tickers A B] *)
Definition options_AB : CommandLine :=
  mkCommandLine (Some ["A"; "B"]%string) None None None None None None None None.

(** [--tickers A B --db_password ''] *)
Definition options_no_password : CommandLine :=
  mkCommandLine (Some ["A"; "B"]%string) None None None None None
                (Some EmptyString) None None.

Definition world_empty : World := mkWorld ∅ ∅.

Definition world_with_csv : World :=
  mkWorld {[ "rendimientos_diarios.csv"%string := CsvFile returns_two_tickers ]} ∅.

(** The table of [config] holds one row, with id 7. *)
Definition world_with_table : World :=
  mkWorld ∅ {[ config.TABLE_NAME := mkTable [mkStored 7 (mkRecord 1%Z "A" (fl 1 10))] 8 ]}.

(** * Properties of [transform_data] *)

Lemma zipWith_length {A B C} (g : A -> B -> C) xs ys :
  length xs = length ys -> length (zipWith g xs ys) = length xs.
Proof.
  revert ys; induction xs as [|x xs IH]; intros [|y ys] H; simpl in *;
    try congruence.
  f_equal. apply IH. congruence.
Qed.

Lemma take_rows_length {A} (d : A) pos xs : length (take_rows d pos xs) = length pos.
Proof. unfold take_rows. apply length_map. Qed.

Lemma melt_col_dates idx t c :
  length idx = length c -> map rec_date (melt_col idx t c) = idx.
Proof.
  unfold melt_col. revert c; induction idx as [|d idx IH]; intros [|v c] H;
    simpl in *; try congruence.
  f_equal. apply IH. congruence.
Qed.

Lemma records_of_app t a b : records_of t (a ++ b) = records_of t a ++ records_of t b.
Proof. unfold records_of. apply List.filter_app. Qed.

Lemma records_of_melt_col_same idx t c :
  records_of t (melt_col idx t c) = melt_col idx t c.
Proof.
  unfold melt_col, records_of.
  revert c; induction idx as [|d idx IH]; intros [|v c]; simpl; auto.
  rewrite String.eqb_refl. f_equal. apply IH.
Qed.

Lemma records_of_melt_col_other idx t t' c :
  t' <> t -> records_of t (melt_col idx t' c) = [].
Proof.
  intros Hne. unfold melt_col, records_of.
  revert c; induction idx as [|d idx IH]; intros [|v c]; simpl; auto.
  destruct (String.eqb_spec t' t) as [E|_]; [contradiction|]. apply IH.
Qed.

Lemma lookup_col_In name cols c :
  lookup_col name cols = Some c -> In (name, c) cols.
Proof.
  induction cols as [|[n c'] cols IH]; simpl; [discriminate|].
  destruct (String.eqb_spec n name) as [->|_].
  - intros [= ->]. now left.
  - intros H. right. auto.
Qed.

Lemma lookup_col_None name cols :
  lookup_col name cols = None <-> ~ In name (map fst cols).
Proof.
  induction cols as [|[n c'] cols IH]; simpl.
  - split; auto.
  - destruct (String.eqb_spec n name) as [->|Hne].
    + split; [discriminate|]. intros H. exfalso. apply H. now left.
    + rewrite IH. split; intros H; [intros [E|E]; auto|]. intros E. apply H. now right.
Qed.

(** What a successful [melt] returns when every column fits the index. *)
Lemma melt_cols_shape f vv out :
  wf_frame f ->
  List.NoDup vv ->
  melt_cols f vv = Ok out ->
  (forall t, In t vv -> dates_of t out = index f) /\
  (forall t, ~ In t vv -> records_of t out = []) /\
  length out = (length (index f) * length vv)%nat /\
  incl vv (column_names f).
Proof.
  intros Hwf. revert out.
  induction vv as [|v vv IH]; intros out Hnd Hm; simpl in Hm.
  - injection Hm as <-. repeat split; simpl; try lia; intros t []; auto.
  - destruct (lookup_col v (columns f)) as [c|] eqn:Hc; [|discriminate].
    destruct (melt_cols f vv) as [rest|] eqn:Hr; simpl in Hm; [|discriminate].
    injection Hm as <-.
    inversion Hnd as [|? ? Hnotin Hnd']; subst.
    destruct (IH rest Hnd' eq_refl) as (Hin & Hout & Hlen & Hincl).
    assert (Hlc : length (index f) = length c).
    { apply lookup_col_In in Hc. unfold wf_frame in Hwf.
      rewrite List.Forall_forall in Hwf. symmetry. exact (Hwf _ Hc). }
    repeat split.
    + intros t [->|Ht].
      * unfold dates_of. rewrite records_of_app, records_of_melt_col_same.
        fold (dates_of t rest).
        assert (records_of t rest = []) as -> by (apply Hout; exact Hnotin).
        rewrite app_nil_r. apply melt_col_dates; exact Hlc.
      * unfold dates_of. rewrite records_of_app, records_of_melt_col_other.
        -- simpl. apply Hin; exact Ht.
        -- intros ->. contradiction.
    + intros t Ht. rewrite records_of_app, records_of_melt_col_other.
      * simpl. apply Hout. intros H. apply Ht. now right.
      * intros ->. apply Ht. now left.
    + rewrite length_app, Hlen. unfold melt_col.
      rewrite zipWith_length by exact Hlc. simpl. lia.
    + intros t [->|Ht]; [|apply Hincl; exact Ht].
      apply lookup_col_In in Hc. unfold column_names.
      apply in_map_iff. exists (t, c). auto.
Qed.

Lemma melt_cols_covered f vv :
  incl vv (column_names f) -> exists out, melt_cols f vv = Ok out.
Proof.
  induction vv as [|v vv IH]; intros Hincl; simpl.
  - eauto.
  - destruct (lookup_col v (columns f)) as [c|] eqn:Hc.
    + destruct IH as [rest ->]. { intros t Ht. apply Hincl. now right. }
      simpl. eauto.
    + apply lookup_col_None in Hc. exfalso. apply Hc. apply Hincl. now left.
Qed.

Lemma melt_cols_missing f vv t :
  In t vv -> ~ In t (column_names f) -> melt_cols f vv = Raise KeyError.
Proof.
  intros Hin Hnot. induction vv as [|v vv IH]; simpl; [destruct Hin|].
  destruct (lookup_col v (columns f)) as [c|] eqn:Hc.
  - destruct Hin as [->|Hin].
    + apply lookup_col_In in Hc. exfalso. apply Hnot.
      apply in_map_iff. exists (t, c). auto.
    + rewrite (IH Hin). reflexivity.
  - reflexivity.
Qed.

Lemma dropna_wf f : wf_frame (dropna f).
Proof.
  unfold wf_frame, dropna. simpl. rewrite List.Forall_map. simpl.
  apply List.Forall_forall. intros nc _. now rewrite !take_rows_length.
Qed.

Lemma dropna_complete f :
  Forall (fun nc => Forall (fun x => isnan x = false) (snd nc)) (columns (dropna f)).
Proof.
  unfold dropna. simpl. rewrite List.Forall_map. simpl.
  apply List.Forall_forall. intros nc Hnc.
  unfold take_rows. rewrite List.Forall_map. apply List.Forall_forall. intros i Hi.
  unfold kept_rows in Hi. apply List.filter_In in Hi. destruct Hi as [_ Hi].
  unfold row_complete in Hi. rewrite forallb_forall in Hi.
  specialize (Hi nc Hnc). unfold notna in Hi.
  now apply negb_true_iff in Hi.
Qed.

Lemma frame_of_map_obj g o : frame_of (map_obj g o) = g (frame_of o).
Proof. now destruct o. Qed.

Lemma transform_data_inv pad data tickers out :
  transform_data pad data tickers = Some out ->
  exists adj_close,
    select_close data tickers = Ok adj_close /\
    melt_cols (returns_frame pad adj_close) (emitted_tickers pad adj_close tickers) = Ok out.
Proof.
  unfold transform_data, transform_body, try_except, melt.
  destruct (select_close data tickers) as [adj|e] eqn:Hs; simpl; [|discriminate].
  rewrite frame_of_map_obj. fold (returns_frame pad adj).
  fold (emitted_tickers pad adj tickers).
  destruct (melt_cols _ _) as [o|] eqn:Hm; [|discriminate].
  intros [= <-]. eauto.
Qed.

Lemma choose_value_vars_NoDup o tickers :
  List.NoDup tickers -> List.NoDup (choose_value_vars o tickers).
Proof.
  intros Hnd. destruct o as [f|f]; simpl; auto.
  unfold column_names.
  destruct (columns f) as [|a [|b l]]; simpl; auto.
  constructor; [intros []|constructor].
Qed.

Lemma emitted_NoDup pad adj tickers :
  List.NoDup tickers -> List.NoDup (emitted_tickers pad adj tickers).
Proof. apply choose_value_vars_NoDup. Qed.

(** C10: when [transform_data] returns, its output is rectangular: every
    emitted ticker has one record on each surviving date and on no other,
    tickers that are not emitted have none, the output length is the number
    of surviving dates times the number of emitted tickers, and on a
    surviving date no column of the returns frame has a missing cell. *)
Theorem transform_output_rectangular (pad : bool) (data : CloseData)
    (tickers : list string) (out : list ReturnRecord) :
  List.NoDup tickers ->
  transform_data pad data tickers = Some out ->
  exists adj_close,
    select_close data tickers = Ok adj_close /\
    let daily_returns := returns_frame pad adj_close in
    let emitted := emitted_tickers pad adj_close tickers in
    (forall t, In t emitted -> dates_of t out = index daily_returns) /\
    (forall t, ~ In t emitted -> records_of t out = []) /\
    length out = (length (index daily_returns) * length emitted)%nat /\
    Forall (fun nc => Forall (fun x => isnan x = false) (snd nc) /\
                      length (snd nc) = length (index daily_returns))
           (columns daily_returns).
Proof.
  intros Hnd Ht.
  destruct (transform_data_inv _ _ _ _ Ht) as (adj & Hs & Hm).
  exists adj. split; [exact Hs|]. cbv zeta.
  pose proof (melt_cols_shape _ _ _ (dropna_wf _) (emitted_NoDup pad adj _ Hnd) Hm)
    as (H1 & H2 & H3 & _).
  repeat split; auto.
  pose proof (dropna_complete (pct_change pad (frame_of adj))) as Hc.
  pose proof (dropna_wf (pct_change pad (frame_of adj))) as Hw.
  unfold wf_frame in Hw. unfold returns_frame.
  rewrite List.Forall_forall in *. intros nc Hnc. split; auto.
Qed.

(** ** Empty tables, missing tickers, record counts *)

Lemma column_names_returns_frame pad adj :
  column_names (returns_frame pad adj) = column_names (frame_of adj).
Proof.
  unfold returns_frame, column_names, dropna, pct_change. simpl.
  rewrite !map_map. apply map_ext. reflexivity.
Qed.

Lemma melt_cols_empty_index f vv out :
  index f = [] -> melt_cols f vv = Ok out -> out = [].
Proof.
  intros Hi. revert out. induction vv as [|v vv IH]; intros out; simpl.
  - now intros [= <-].
  - destruct (lookup_col v (columns f)) as [c|]; [|discriminate].
    destruct (melt_cols f vv) as [rest|]; simpl; [|discriminate].
    intros [= <-]. rewrite Hi. simpl. now apply IH.
Qed.

Lemma emitted_covered pad f tickers :
  length (columns f) = 1%nat \/ incl tickers (column_names f) ->
  incl (emitted_tickers pad (DataFrame f) tickers)
       (column_names (returns_frame pad (DataFrame f))).
Proof.
  intros H. rewrite column_names_returns_frame. simpl.
  unfold emitted_tickers, choose_value_vars. simpl.
  rewrite !length_map.
  destruct (Nat.eqb_spec (length (columns f)) 1) as [E|NE].
  - unfold column_names. simpl. rewrite !map_map. simpl. apply incl_refl.
  - destruct H as [H|H]; [contradiction|exact H].
Qed.

(** C9, as the code has it: a price table without rows is transformed
    into the empty record sequence when it is shaped for the request (a
    bare series for one ticker, otherwise a ticker-keyed frame with a
    single column or a column for every requested ticker); no exception is
    then turned into [None].  Emptiness does not protect from the
    exceptions of the shape: a ticker-keyed frame with one requested
    ticker gives [None] (AttributeError of [to_frame]), with or without
    rows. *)
Theorem transform_empty_table (pad : bool) (data : CloseData) (tickers : list string) :
  close_index data = [] ->
  (shape_matches data tickers -> transform_data pad data tickers = Some []) /\
  (forall f, data = CloseFrame f -> length tickers = 1%nat ->
     transform_data pad data tickers = None).
Proof.
  intros Hidx. split.
  - intros Hshape.
    unfold transform_data, transform_body, melt.
    destruct data as [idx v|f]; simpl in Hidx, Hshape.
    + subst idx. unfold select_close. rewrite Hshape. simpl.
      rewrite String.eqb_refl. reflexivity.
    + destruct Hshape as [Hlen Hcov].
      unfold select_close. apply Nat.eqb_neq in Hlen. rewrite Hlen. simpl.
      destruct (melt_cols_covered _ _ (emitted_covered pad f tickers Hcov)) as [out Hout].
      unfold emitted_tickers in Hout. simpl in Hout. unfold returns_frame in Hout.
      simpl in Hout. rewrite Hout. simpl. f_equal.
      eapply melt_cols_empty_index; [|exact Hout].
      simpl. unfold kept_rows. simpl. rewrite Hidx. reflexivity.
  - intros f -> Hlen.
    unfold transform_data, transform_body, select_close.
    rewrite Hlen. reflexivity.
Qed.

(** C4, as the code has it: when a requested ticker has no column in a
    ticker-keyed table, [transform_data] returns records only if the table
    has exactly one column (and more than one ticker was requested): the
    value variables are then that column, and the missing ticker has no
    record.  In every other case the exception raised by [melt] (or by
    [to_frame]) is caught and the result is [None]: no record at all. *)
Theorem transform_missing_ticker (pad : bool) (f : WideFrame)
    (tickers : list string) (t : string) :
  In t tickers ->
  t <> "Date"%string ->
  ~ In t (column_names f) ->
  ((length tickers <> 1%nat /\ length (columns f) = 1%nat) ->
     exists out,
       transform_data pad (CloseFrame f) tickers = Some out /\
       records_of t out = [] /\
       forall c, In c (column_names f) ->
         dates_of c out = index (returns_frame pad (DataFrame f))) /\
  (~ (length tickers <> 1%nat /\ length (columns f) = 1%nat) ->
     transform_data pad (CloseFrame f) tickers = None).
Proof.
  intros Hin _ Hnot. split.
  - intros [Hlen Hone].
    assert (Hem : emitted_tickers pad (DataFrame f) tickers = column_names f).
    { unfold emitted_tickers, choose_value_vars. simpl. rewrite !length_map.
      rewrite Hone. simpl. unfold column_names. simpl. rewrite !map_map.
      apply map_ext. reflexivity. }
    destruct (melt_cols_covered _ _ (emitted_covered pad f tickers (or_introl Hone)))
      as [out Hout].
    exists out.
    assert (Hnd : List.NoDup (emitted_tickers pad (DataFrame f) tickers)).
    { rewrite Hem. unfold column_names.
      destruct (columns f) as [|a [|b l]]; simpl in *; try discriminate.
      constructor; [intros []|constructor]. }
    destruct (melt_cols_shape _ _ _ (dropna_wf _) Hnd Hout) as (H1 & H2 & _).
    rewrite Hem in H1, H2. repeat split; auto.
    unfold transform_data, transform_body, melt, select_close.
    apply Nat.eqb_neq in Hlen. rewrite Hlen. simpl.
    unfold emitted_tickers, returns_frame in Hout. simpl in Hout.
    rewrite Hout. reflexivity.
  - intros Hno.
    unfold transform_data, transform_body, melt, select_close.
    destruct (Nat.eqb_spec (length tickers) 1) as [E|NE]; [reflexivity|].
    simpl.
    assert (Hone : length (columns f) <> 1%nat) by (intros E; apply Hno; auto).
    pose proof (melt_cols_missing (returns_frame pad (DataFrame f))
                  (emitted_tickers pad (DataFrame f) tickers) t) as Hm.
    unfold emitted_tickers, choose_value_vars in Hm. simpl in Hm.
    rewrite !length_map in Hm. apply Nat.eqb_neq in Hone. rewrite Hone in Hm.
    unfold returns_frame in Hm. simpl in Hm.
    rewrite !length_map. rewrite Hone.
    rewrite Hm; auto.
    change (~ In t (column_names (returns_frame pad (DataFrame f)))).
    now rewrite column_names_returns_frame.
Qed.

(** ** Record counts under full coverage *)

Lemma zipWith_shift p xs :
  zipWith (fun c p => fsub (fdiv c p) f1) xs (p :: removelast xs) = pct_from p xs.
Proof.
  revert p. induction xs as [|x xs IH]; intros p; [reflexivity|].
  destruct xs as [|y ys]; [reflexivity|].
  change (removelast (x :: y :: ys)) with (x :: removelast (y :: ys)).
  simpl zipWith. simpl pct_from. f_equal. apply IH.
Qed.

Lemma pct_unpadded xs : pct_change_col false xs = pct_from NaN xs.
Proof.
  unfold pct_change_col, shift1. destruct xs as [|x xs]; [reflexivity|].
  apply zipWith_shift.
Qed.

Lemma is_price_notna x : is_price x = true -> isnan x = false.
Proof. now destruct x. Qed.

Lemma ffill_from_prices last xs :
  forallb is_price xs = true -> ffill_from last xs = xs.
Proof.
  revert last. induction xs as [|x xs IH]; intros last H; simpl in *; auto.
  apply andb_true_iff in H. destruct H as [Hx Hxs].
  rewrite (is_price_notna _ Hx). f_equal. now apply IH.
Qed.

Lemma pct_change_col_prices pad xs :
  forallb is_price xs = true -> pct_change_col pad xs = pct_from NaN xs.
Proof.
  intros H. rewrite <- pct_unpadded. unfold pct_change_col.
  destruct pad; [|reflexivity]. unfold ffill. now rewrite ffill_from_prices.
Qed.

Lemma pct_of_prices x p :
  is_price x = true -> is_price p = true -> isnan (fsub (fdiv x p) f1) = false.
Proof.
  destruct x as [a| | |], p as [b| | |]; simpl; try discriminate.
  intros _ Hb. apply negb_true_iff in Hb. now rewrite Hb.
Qed.

Lemma pct_from_prices p xs :
  is_price p = true -> forallb is_price xs = true ->
  Forall (fun x => isnan x = false) (pct_from p xs).
Proof.
  revert p. induction xs as [|x xs IH]; intros p Hp H; simpl in *; [constructor|].
  apply andb_true_iff in H. destruct H as [Hx Hxs].
  constructor; [now apply pct_of_prices|now apply IH].
Qed.

Lemma pct_from_length p xs : length (pct_from p xs) = length xs.
Proof. revert p. induction xs; intros; simpl; auto. Qed.

(** On a column of prices only the first row of [pct_change] is missing. *)
Lemma pct_change_col_isnan pad xs i :
  forallb is_price xs = true -> (i < length xs)%nat ->
  isnan (nth i (pct_change_col pad xs) NaN) = Nat.eqb i 0.
Proof.
  intros H Hi. rewrite pct_change_col_prices by exact H.
  destruct xs as [|x xs]; [simpl in Hi; lia|].
  simpl in H. apply andb_true_iff in H. destruct H as [Hx Hxs].
  destruct i as [|j]; [destruct x; reflexivity|].
  simpl. pose proof (pct_from_prices x xs Hx Hxs) as Hall.
  rewrite List.Forall_forall in Hall. apply Hall. apply nth_In.
  rewrite pct_from_length. simpl in Hi. lia.
Qed.

Lemma row_complete_full pad f i :
  full_prices f -> columns f <> [] -> (i < length (index f))%nat ->
  row_complete (columns (pct_change pad f)) i = negb (Nat.eqb i 0).
Proof.
  intros Hfull Hne Hi. unfold row_complete, pct_change. simpl.
  unfold full_prices in Hfull.
  induction (columns f) as [|[n c] cols IH]; [contradiction|].
  inversion Hfull as [|? ? [Hp Hl] Hrest]; subst. simpl in *.
  unfold notna at 1. rewrite pct_change_col_isnan by (auto; lia).
  destruct cols as [|c2 cols].
  - simpl. now rewrite andb_true_r.
  - rewrite IH by (auto; discriminate). now destruct (Nat.eqb i 0).
Qed.

Lemma filter_seq_all g a n :
  (forall i, (a <= i < a + n)%nat -> g i = true) ->
  List.filter g (seq a n) = seq a n.
Proof.
  revert a. induction n as [|n IH]; intros a H; simpl; [reflexivity|].
  rewrite H by lia. f_equal. apply IH. intros i Hi. apply H. lia.
Qed.

Lemma kept_rows_full pad f :
  full_prices f -> columns f <> [] ->
  kept_rows (pct_change pad f) = seq 1 (length (index f) - 1).
Proof.
  intros Hfull Hne. unfold kept_rows.
  change (index (pct_change pad f)) with (index f).
  pose proof (row_complete_full pad f) as Hrc.
  destruct (length (index f)) as [|n] eqn:Hn; [reflexivity|].
  cbn [seq List.filter].
  rewrite (Hrc 0%nat Hfull Hne) by lia. cbn [Nat.eqb negb].
  replace (S n - 1)%nat with n by lia. apply filter_seq_all. intros i Hi.
  rewrite (Hrc i Hfull Hne) by lia.
  destruct i; [lia|reflexivity].
Qed.

Lemma valid_prices xs : forallb is_price xs = true -> valid xs = xs.
Proof.
  unfold valid. induction xs as [|x xs IH]; simpl; auto.
  intros H. apply andb_true_iff in H. destruct H as [Hx Hxs].
  unfold notna. rewrite (is_price_notna _ Hx). simpl. f_equal. now apply IH.
Qed.

(** C2, as the code has it: when every column of the price table has a
    price on every date, each emitted ticker gets one record per date but
    the first, that is its number of priced dates minus one. *)
Theorem transform_count_full_coverage (pad : bool) (data : CloseData)
    (tickers : list string) (adj_close : PandasObj) (out : list ReturnRecord)
    (t : string) :
  List.NoDup tickers ->
  select_close data tickers = Ok adj_close ->
  full_prices (frame_of adj_close) ->
  transform_data pad data tickers = Some out ->
  In t (emitted_tickers pad adj_close tickers) ->
  length (records_of t out) = (length (index (frame_of adj_close)) - 1)%nat /\
  forall c, In c (columns (frame_of adj_close)) ->
    length (valid (snd c)) = length (index (frame_of adj_close)).
Proof.
  intros Hnd Hs Hfull Ht Hin.
  destruct (transform_data_inv _ _ _ _ Ht) as (adj & Hs' & Hm).
  rewrite Hs in Hs'. injection Hs' as <-.
  pose proof (melt_cols_shape _ _ _ (dropna_wf _) (emitted_NoDup pad adj_close _ Hnd) Hm)
    as (H1 & _ & _ & Hincl).
  split.
  - specialize (H1 t Hin). unfold dates_of in H1.
    rewrite <- (length_map rec_date), H1.
    unfold returns_frame, dropna. simpl. rewrite take_rows_length.
    rewrite kept_rows_full; [apply length_seq|exact Hfull|].
    specialize (Hincl t Hin). fold (returns_frame pad adj_close) in Hincl.
    rewrite column_names_returns_frame in Hincl.
    unfold column_names in Hincl. intros E. rewrite E in Hincl. destruct Hincl.
  - intros c Hc. unfold full_prices in Hfull. rewrite List.Forall_forall in Hfull.
    destruct (Hfull c Hc) as [Hp Hl]. now rewrite valid_prices.
Qed.

(** * Arithmetic of finite cells *)

Lemma fq_eq a b : a == b -> fq a = fq b.
Proof. intros H. unfold fq. f_equal. now apply Qred_complete. Qed.

Lemma fq_red a : fq (Qred a) = fq a.
Proof. apply fq_eq, Qred_correct. Qed.

Lemma fq_zero a : a == 0 -> fq a = Fin 0.
Proof. intros H. now rewrite (fq_eq _ _ H). Qed.

Lemma fadd_fq a b : fadd (fq a) (Fin b) = fq (a + b).
Proof. simpl. apply fq_eq. now rewrite Qred_correct. Qed.

Lemma fadd_fq2 a b : fadd (fq a) (fq b) = fq (a + b).
Proof. simpl. apply fq_eq. now rewrite !Qred_correct. Qed.

Lemma valid_Fin qs : valid (map Fin qs) = map Fin qs.
Proof. unfold valid. induction qs; simpl; auto. now f_equal. Qed.

Lemma fold_fadd_fq (g : float -> float) (k : Q -> Q) qs a :
  (forall b x, fadd (fq b) (g (Fin x)) = fq (b + k x)) ->
  fold_left fadd (map g (map Fin qs)) (fq a) = fq (a + Qsum (map k qs)).
Proof.
  intros Hg. revert a. induction qs as [|x qs IH]; intros a; cbn [map fold_left].
  - apply fq_eq. simpl. ring.
  - rewrite Hg, IH. apply fq_eq. simpl. ring.
Qed.

Lemma fsum_map_Fin (g : float -> float) (k : Q -> Q) qs :
  (forall x, g (Fin x) = fq (k x)) ->
  fsum (map g (map Fin qs)) = fq (Qsum (map k qs)).
Proof.
  intros Hg. unfold fsum. change (Fin 0) with (fq 0).
  rewrite (fold_fadd_fq g k).
  - apply fq_eq. ring.
  - intros b x. rewrite Hg. apply fadd_fq2.
Qed.

Lemma fsum_Fin qs : fsum (map Fin qs) = fq (Qsum qs).
Proof.
  unfold fsum. change (Fin 0) with (fq 0).
  rewrite <- (map_id (map Fin qs)).
  rewrite (fold_fadd_fq (fun x => x) (fun x => x)).
  - rewrite map_id. apply fq_eq. ring.
  - intros b x. apply fadd_fq.
Qed.

Lemma Qcount_pos n : (1 <= n)%nat -> 0 < inject_Z (Z.of_nat n).
Proof.
  intros H. change 0 with (inject_Z 0). rewrite <- Zlt_Qlt. lia.
Qed.

Lemma fdiv_count a n :
  (1 <= n)%nat -> fdiv (fq a) (of_nat n) = fq (a / inject_Z (Z.of_nat n)).
Proof.
  intros H. unfold of_nat. simpl.
  destruct (Qeq_bool (inject_Z (Z.of_nat n)) 0) eqn:E.
  - apply Qeq_bool_eq in E. pose proof (Qcount_pos n H) as Hp.
    rewrite E in Hp. exfalso. now apply (Qlt_irrefl 0).
  - apply fq_eq. now rewrite Qred_correct.
Qed.

Lemma mean_Fin qs :
  (1 <= length qs)%nat -> mean (map Fin qs) = fq (Qmean qs).
Proof.
  intros H. unfold mean. rewrite valid_Fin, fsum_Fin, length_map.
  now rewrite fdiv_count.
Qed.

Lemma sq_dev_fq m x : sq_dev (fq m) (Fin x) = fq (Qsq (x - m)).
Proof.
  unfold sq_dev, Qsq. simpl. apply fq_eq. now rewrite !Qred_correct.
Qed.

Lemma var_Fin qs :
  (2 <= length qs)%nat -> var (map Fin qs) = fq (Qvar qs).
Proof.
  intros H. unfold var. rewrite valid_Fin, length_map.
  destruct (Nat.leb_spec (length qs) 1) as [Hle|_]; [lia|].
  rewrite mean_Fin by lia.
  rewrite (fsum_map_Fin _ (fun x => Qsq (x - Qmean qs))) by (intros; apply sq_dev_fq).
  rewrite fdiv_count by lia. reflexivity.
Qed.

Lemma Qsq_nonneg x : 0 <= Qsq x.
Proof. unfold Qsq. nra. Qed.

Lemma Qsum_nonneg l : Forall (fun x => 0 <= x) l -> 0 <= Qsum l.
Proof.
  induction 1 as [|x l Hx _ IH]; simpl; [apply Qle_refl|]. lra.
Qed.

Lemma Qsum_sq_nonneg (k : Q -> Q) l : 0 <= Qsum (map (fun x => Qsq (k x)) l).
Proof.
  apply Qsum_nonneg. rewrite List.Forall_map. apply List.Forall_forall.
  intros x _. apply Qsq_nonneg.
Qed.

Lemma Qvar_nonneg qs : (2 <= length qs)%nat -> 0 <= Qvar qs.
Proof.
  intros H. unfold Qvar. apply Qle_shift_div_l.
  - apply Qcount_pos. lia.
  - rewrite Qmult_0_l. apply Qsum_sq_nonneg.
Qed.

Lemma Qsum_zero l : Forall (fun x => x == 0) l -> Qsum l == 0.
Proof.
  induction 1 as [|x l Hx _ IH]; simpl; [reflexivity|]. rewrite Hx, IH. ring.
Qed.

Lemma Qsum_const c l :
  Forall (fun x => x == c) l -> Qsum l == c * Qcount l.
Proof.
  unfold Qcount. induction 1 as [|x l Hx _ IH]; simpl length; simpl Qsum.
  - simpl. ring.
  - rewrite Hx, IH. rewrite Nat2Z.inj_succ. unfold Z.succ.
    rewrite inject_Z_plus. ring.
Qed.

Lemma Qmean_const c l :
  (1 <= length l)%nat -> Forall (fun x => x == c) l -> Qmean l == c.
Proof.
  intros Hn H. unfold Qmean. rewrite (Qsum_const c l H).
  pose proof (Qcount_pos _ Hn). unfold Qcount. field. lra.
Qed.

Lemma Qvar_const c l :
  (2 <= length l)%nat -> Forall (fun x => x == c) l -> Qvar l == 0.
Proof.
  intros Hn H. unfold Qvar.
  assert (Hm : Qmean l == c) by (apply Qmean_const; [lia|exact H]).
  rewrite Qsum_zero.
  - pose proof (Qcount_pos (length l - 1) ltac:(lia)). field. lra.
  - rewrite List.Forall_map. eapply List.Forall_impl; [|exact H].
    intros x Hx. simpl in Hx. unfold Qsq. rewrite Hx, Hm. ring.
Qed.

Lemma fdiv_zero_not_finite x : isfinite (fdiv x (Fin 0)) = false.
Proof.
  destruct x as [a| | |]; simpl; auto.
  destruct (a ?= 0); reflexivity.
Qed.

(** * Group keys and aligned series *)

Lemma insert_key_In {A} (cmp : A -> A -> comparison) k a ks :
  (forall x y, cmp x y = Eq -> x = y) ->
  In k (insert_key cmp a ks) <-> k = a \/ In k ks.
Proof.
  intros Hcmp. induction ks as [|h ks IH]; simpl.
  - intuition.
  - destruct (cmp a h) eqn:E; simpl.
    + apply Hcmp in E. subst. intuition.
    + intuition.
    + rewrite IH. intuition.
Qed.

Lemma sorted_keys_In {A} (cmp : A -> A -> comparison) k ks :
  (forall x y, cmp x y = Eq -> x = y) ->
  In k (sorted_keys cmp ks) <-> In k ks.
Proof.
  intros Hcmp. induction ks as [|a ks IH]; simpl; [tauto|].
  rewrite insert_key_In by exact Hcmp. rewrite IH. intuition.
Qed.

Lemma tickers_of_In t rows :
  In t (tickers_of rows) <-> In t (map ticker rows).
Proof. apply sorted_keys_In. apply String.compare_eq_iff. Qed.

Lemma lookup_key_map {A} (g : string -> A) keys t :
  In t keys -> lookup_key t (map (fun k => (k, g k)) keys) = Some (g t).
Proof.
  induction keys as [|k keys IH]; simpl; [tauto|].
  intros H. destruct (String.eqb_spec k t) as [->|Hne]; [reflexivity|].
  destruct H as [H|H]; [contradiction|auto].
Qed.

Lemma lookup_groupby {A} (agg : list float -> A) rows t :
  In t (map ticker rows) ->
  lookup_key t (groupby_agg agg rows) = Some (agg (group_values t rows)).
Proof.
  intros H. unfold groupby_agg.
  apply (lookup_key_map (fun k => agg (group_values k rows))).
  now apply tickers_of_In.
Qed.

Lemma lookup_series_map g s t :
  lookup_key t (series_map g s) = option_map g (lookup_key t s).
Proof.
  unfold series_map. induction s as [|[k v] s IH]; simpl; [reflexivity|].
  destruct (String.eqb k t); [reflexivity|exact IH].
Qed.

Lemma lookup_series_binop g a b t :
  lookup_key t (series_binop g a b) =
  option_map (fun x => g x (default NaN (lookup_key t b))) (lookup_key t a).
Proof.
  unfold series_binop. induction a as [|[k v] a IH]; simpl; [reflexivity|].
  destruct (String.eqb_spec k t) as [->|_]; [reflexivity|exact IH].
Qed.

Lemma groupby_nil {A} (agg : list float -> A) : groupby_agg agg [] = [].
Proof. reflexivity. Qed.

(** * Properties of the [calculate_*] functions *)

(** Unfold a call in the store monad down to its lookups. *)
Ltac run_store :=
  unfold main, calculate_statistics, calculate_annualized_volatility,
    calculate_sharpe_ratio, calculate_cumulative_returns, setitem,
    mbind, M_bind, deref, mret, M_ret.

Section AnalyticsFacts.

Variable sqrtQ : Q -> Q.

Lemma std_Fin qs :
  (2 <= length qs)%nat ->
  std sqrtQ (map Fin qs) = fq (sqrtQ (Qred (Qvar qs))).
Proof.
  intros H. unfold std. rewrite var_Fin by exact H. unfold fq at 1. simpl.
  pose proof (Qvar_nonneg qs H) as Hv.
  destruct (Qle_bool 0 (Qred (Qvar qs))) eqn:E; [reflexivity|].
  assert (Qle_bool 0 (Qred (Qvar qs)) = true); [|congruence].
  apply Qle_bool_iff. now rewrite Qred_correct.
Qed.

Lemma lookup_volatility rows t :
  In t (map ticker rows) ->
  lookup_key t (annualized_volatility_of sqrtQ rows) =
  Some (fmul (std sqrtQ (group_values t rows)) (fsqrt sqrtQ f252)).
Proof.
  intros H. unfold annualized_volatility_of.
  now rewrite lookup_series_map, lookup_groupby.
Qed.

Lemma lookup_sharpe rows rf t :
  In t (map ticker rows) ->
  lookup_key t (sharpe_ratio_of sqrtQ rows rf) =
  Some (fdiv (fsub (fmul (mean (group_values t rows)) f252) rf)
             (fmul (std sqrtQ (group_values t rows)) (fsqrt sqrtQ f252))).
Proof.
  intros H. unfold sharpe_ratio_of.
  rewrite lookup_series_binop, !lookup_series_map, !lookup_groupby by exact H.
  reflexivity.
Qed.


End AnalyticsFacts.

(** * Correlation and rolling volatility on the pivot *)

Lemma filter_isfinite_values c : List.filter isfinite c = map Fin (finite_values c).
Proof.
  unfold finite_values. induction c as [|x c IH]; simpl; [reflexivity|].
  destruct x; simpl; now rewrite IH.
Qed.

Lemma paired_diag c : paired c c = map (fun x => (x, x)) (List.filter isfinite c).
Proof.
  unfold paired. induction c as [|x c IH]; simpl; [reflexivity|].
  unfold both_finite at 1. simpl. rewrite andb_diag.
  destruct (isfinite x); simpl; now rewrite IH.
Qed.

Lemma paired_map {A} (g k : A -> float) ds :
  paired (map g ds) (map k ds) =
  map (fun d => (g d, k d))
      (List.filter (fun d => isfinite (g d) && isfinite (k d)) ds).
Proof.
  unfold paired. induction ds as [|d ds IH]; simpl; [reflexivity|].
  unfold both_finite at 1. simpl.
  destruct (isfinite (g d) && isfinite (k d)); simpl; now rewrite IH.
Qed.

Lemma nth_map_seq {A} (g : nat -> A) n i d :
  (i < n)%nat -> nth i (map g (seq 0 n)) d = g i.
Proof.
  intros H. rewrite (nth_indep _ d (g 0%nat)) by (now rewrite length_map, length_seq).
  rewrite map_nth. now rewrite seq_nth.
Qed.

Lemma nth_map_in {A B} (g : A -> B) l k d d' :
  (k < length l)%nat -> nth k (map g l) d = g (nth k l d').
Proof.
  revert k. induction l as [|x l IH]; intros [|k] H; simpl in *; try lia; auto.
  apply IH. lia.
Qed.

Lemma corr_entry_sym s cols i j : corr_entry s cols i j = corr_entry s cols j i.
Proof. unfold corr_entry. now rewrite Nat.max_comm, Nat.min_comm. Qed.

Lemma corr_names s f : map fst (corr s f) = column_names f.
Proof.
  unfold corr, column_names. rewrite map_map. simpl.
  induction (columns f) as [|c cols IH] using rev_ind; [reflexivity|].
  rewrite length_app. simpl. rewrite Nat.add_1_r, seq_S, !map_app. simpl.
  rewrite app_nth2, Nat.sub_diag by lia. simpl. f_equal.
  rewrite <- IH. apply map_ext_in. intros i Hi. apply in_seq in Hi.
  now rewrite app_nth1 by lia.
Qed.

Lemma corr_lookup s f i j :
  (i < length (columns f))%nat -> (j < length (columns f))%nat ->
  nth j (snd (nth i (corr s f) (""%string, []))) NaN = corr_entry s (columns f) i j.
Proof.
  intros Hi Hj. unfold corr. rewrite nth_map_seq by exact Hi. simpl.
  now rewrite nth_map_seq.
Qed.

Lemma pivot_columns rows p :
  pivot rows = Ok p ->
  index p = dates_in rows /\
  columns p = map (fun t => (t, map (fun d => cell d t rows) (dates_in rows)))
                  (tickers_of rows).
Proof.
  unfold pivot. destruct (has_duplicate_cell rows); [discriminate|].
  intros [= <-]. split; reflexivity.
Qed.

Lemma Qsum_nonneg_zero l :
  Forall (fun x => 0 <= x) l -> Qsum l == 0 -> Forall (fun x => x == 0) l.
Proof.
  induction 1 as [|x l Hx Hl IH]; simpl; intros Hs; constructor.
  - pose proof (Qsum_nonneg l Hl). lra.
  - apply IH. pose proof (Qsum_nonneg l Hl). lra.
Qed.

Lemma Qss_distinct qs a b :
  In a qs -> In b qs -> ~ a == b -> ~ Qss qs == 0.
Proof.
  intros Ha Hb Hne Hz. unfold Qss in Hz.
  apply Qsum_nonneg_zero in Hz.
  - rewrite List.Forall_map, List.Forall_forall in Hz.
    pose proof (Hz a Ha) as H1. pose proof (Hz b Hb) as H2.
    simpl in H1, H2. unfold Qsq in H1, H2.
    apply Hne.
    assert (Ea : a - Qmean qs == 0) by nra.
    assert (Eb : b - Qmean qs == 0) by nra.
    lra.
  - rewrite List.Forall_map. apply List.Forall_forall. intros x _. apply Qsq_nonneg.
Qed.

Lemma Qss_const c qs : Forall (fun x => x == c) qs -> Qss qs == 0.
Proof.
  intros H. destruct qs as [|q qs]; [reflexivity|].
  assert (Hm : Qmean (q :: qs) == c) by (apply Qmean_const; [simpl; lia|exact H]).
  unfold Qss. apply Qsum_zero. rewrite List.Forall_map.
  eapply List.Forall_impl; [|exact H].
  intros x Hx. simpl in Hx. unfold Qsq. rewrite Hx, Hm. ring.
Qed.

Lemma filter_length_lt {A} (g : A -> bool) l :
  Exists (fun x => g x = false) l -> (length (List.filter g l) < length l)%nat.
Proof.
  induction 1 as [x l Hx|x l _ IH]; simpl.
  - rewrite Hx. pose proof (filter_length_le g l). lia.
  - destruct (g x); simpl; lia.
Qed.

Lemma in_skipn {A} (x : A) n l : In x (skipn n l) -> In x l.
Proof.
  intros H. rewrite <- (firstn_skipn n l). apply in_or_app. now right.
Qed.

Lemma in_firstn {A} (x : A) n l : In x (firstn n l) -> In x l.
Proof.
  intros H. rewrite <- (firstn_skipn n l). apply in_or_app. now left.
Qed.

Lemma window_at_length w i xs :
  (i < length xs)%nat -> length (window_at w i xs) = Nat.min w (S i).
Proof.
  intros H. unfold window_at. rewrite length_skipn, length_firstn. lia.
Qed.

Lemma lookup_map_columns g f t :
  lookup_col t (columns (map_columns g f)) = option_map g (lookup_col t (columns f)).
Proof.
  unfold map_columns. simpl. induction (columns f) as [|[n c] cols IH]; simpl; auto.
  destruct (String.eqb n t); [reflexivity|exact IH].
Qed.

Section PivotFacts.

Variable sqrtQ : Q -> Q.

Lemma rolling_std_at_short w xs i :
  (i < length xs)%nat -> (S i < w)%nat -> rolling_std_at sqrtQ w xs i = NaN.
Proof.
  intros Hi Hw. unfold rolling_std_at.
  pose proof (filter_length_le isfinite (window_at w i xs)) as Hle.
  rewrite window_at_length in Hle by exact Hi.
  destruct (Nat.leb_spec w (length (List.filter isfinite (window_at w i xs))));
    [lia|reflexivity].
Qed.

Lemma rolling_std_at_full w xs i :
  (i < length xs)%nat -> (w <= S i)%nat ->
  forallb isfinite (window_at w i xs) = true ->
  rolling_std_at sqrtQ w xs i = std sqrtQ (window_at w i xs).
Proof.
  intros Hi Hw Hall. unfold rolling_std_at.
  rewrite forallb_filter_id by exact Hall.
  rewrite window_at_length by exact Hi.
  destruct (Nat.leb_spec w (Nat.min w (S i))); [reflexivity|lia].
Qed.

Lemma rolling_std_at_gap w xs i :
  (i < length xs)%nat -> (1 <= w <= S i)%nat ->
  Exists (fun x => isfinite x = false) (window_at w i xs) ->
  rolling_std_at sqrtQ w xs i = NaN.
Proof.
  intros Hi Hw Hex. unfold rolling_std_at.
  pose proof (filter_length_lt isfinite _ Hex) as Hlt.
  rewrite window_at_length in Hlt by exact Hi.
  destruct (Nat.leb_spec w (length (List.filter isfinite (window_at w i xs))));
    [lia|reflexivity].
Qed.

Lemma forallb_window w i xs :
  forallb isfinite xs = true -> forallb isfinite (window_at w i xs) = true.
Proof.
  intros H. rewrite forallb_forall in *. intros x Hx. apply H.
  unfold window_at in Hx. now apply in_skipn, in_firstn in Hx.
Qed.

(** C5, as the code has it: the rolling series of a ticker is computed on
    its pivot column, i.e. on the date axis shared by all tickers.  Row [i]
    is missing while fewer than [window] rows are available and whenever
    one of the last [window] rows has no finite return for the ticker;
    otherwise it is the sample standard deviation of those [window] cells
    times sqrt 252.  The series depends on no other column, and for a
    ticker with a finite return on every row it is the own-sequence
    rolling volatility. *)
Theorem rolling_volatility_window (window : nat) (df_pivot : WideFrame)
    (t : string) (c : list float) :
  lookup_col t (columns df_pivot) = Some c ->
  exists out,
    lookup_col t (columns (rolling_volatility sqrtQ window df_pivot)) = Some out /\
    length out = length c /\
    (forall i, (i < length c)%nat ->
       ((S i < window)%nat -> nth i out NaN = NaN) /\
       ((window <= S i)%nat -> forallb isfinite (window_at window i c) = true ->
          length (window_at window i c) = window /\
          nth i out NaN =
            fmul (std sqrtQ (window_at window i c)) (fsqrt sqrtQ f252)) /\
       ((1 <= window <= S i)%nat ->
          Exists (fun x => isfinite x = false) (window_at window i c) ->
          nth i out NaN = NaN)) /\
    (forallb isfinite c = true -> out = rolling_volatility_spec sqrtQ window c).
Proof.
  intros Hc. eexists. split.
  { unfold rolling_volatility. rewrite lookup_map_columns, Hc. reflexivity. }
  split. { unfold rolling_std. now rewrite !length_map, length_seq. }
  split.
  - intros i Hi. unfold rolling_std. rewrite map_map.
    rewrite nth_map_seq by exact Hi. repeat split.
    + intros Hw. now rewrite rolling_std_at_short.
    + rewrite window_at_length by exact Hi. lia.
    + now rewrite rolling_std_at_full.
    + intros Hw Hex. now rewrite rolling_std_at_gap.
  - intros Hall. unfold rolling_std, rolling_volatility_spec. rewrite map_map.
    apply map_ext_in. intros i Hi. apply in_seq in Hi.
    destruct (Nat.leb_spec window (S i)).
    + rewrite rolling_std_at_full; auto; [lia|]. now apply forallb_window.
    + rewrite rolling_std_at_short; auto. lia.
Qed.

End PivotFacts.

Section CorrelationFacts.

Variable sqrtQ : Q -> Q.

(** The square root is exact on squares. *)
Hypothesis sqrt_square : forall a, 0 <= a -> sqrtQ (Qred (a * a)) == a.

Lemma Qss_nonneg qs : 0 <= Qss qs.
Proof. unfold Qss. apply Qsum_sq_nonneg. Qed.

Lemma fsqrt_square a :
  0 <= a -> fsqrt sqrtQ (fmul (fq a) (fq a)) = fq a.
Proof using sqrt_square.
  intros Ha. simpl.
  assert (Hr : 0 <= Qred a) by now rewrite Qred_correct.
  destruct (Qle_bool 0 (Qred (Qred a * Qred a))) eqn:E.
  - apply fq_eq. rewrite (sqrt_square (Qred a) Hr). apply Qred_correct.
  - assert (Qle_bool 0 (Qred (Qred a * Qred a)) = true); [|congruence].
    apply Qle_bool_iff. rewrite Qred_correct. nra.
Qed.

Lemma pearson_self c :
  pearson sqrtQ c c =
  if Nat.ltb (length (finite_values c)) 1 then NaN
  else if Qeq_bool (Qss (finite_values c)) 0 then NaN else Fin 1.
Proof using sqrt_square.
  unfold pearson. rewrite paired_diag, filter_isfinite_values.
  set (qs := finite_values c). unfold pearson_pairs.
  rewrite !length_map.
  destruct (Nat.ltb_spec (length qs) 1) as [|Hn]; [reflexivity|].
  assert (Hfst : map fst (map (fun x : float => (x, x)) (map Fin qs)) = map Fin qs).
  { rewrite map_map. simpl. apply map_id. }
  assert (Hsnd : map snd (map (fun x : float => (x, x)) (map Fin qs)) = map Fin qs).
  { rewrite map_map. simpl. apply map_id. }
  rewrite Hfst, Hsnd, fsum_Fin, fdiv_count by exact Hn.
  fold (Qmean qs).
  assert (Hss : forall g : float * float -> float,
             (forall x, g (Fin x, Fin x) = sq_dev (fq (Qmean qs)) (Fin x)) ->
             fsum (map g (map (fun x : float => (x, x)) (map Fin qs))) = fq (Qss qs)).
  { intros g Hg. rewrite !map_map.
    rewrite (map_ext _ (fun x => sq_dev (fq (Qmean qs)) (Fin x)) Hg).
    rewrite <- (map_map Fin (sq_dev (fq (Qmean qs)))).
    now rewrite (fsum_map_Fin _ (fun x => Qsq (x - Qmean qs)))
      by (intros; apply sq_dev_fq). }
  rewrite !Hss by reflexivity.
  rewrite fsqrt_square by apply Qss_nonneg.
  unfold is_zero, fq.
  destruct (Qeq_bool (Qss qs) 0) eqn:E.
  - apply Qeq_bool_iff in E.
    assert (Qeq_bool (Qred (Qss qs)) 0 = true) as ->; [|reflexivity].
    apply Qeq_bool_iff. now rewrite Qred_correct.
  - assert (Hz : Qeq_bool (Qred (Qss qs)) 0 = false).
    { destruct (Qeq_bool (Qred (Qss qs)) 0) eqn:E'; [|reflexivity].
      apply Qeq_bool_iff in E'. rewrite Qred_correct in E'.
      apply Qeq_bool_iff in E'. congruence. }
    rewrite Hz. simpl. rewrite Hz.
    apply Qeq_bool_neq in Hz.
    change (Fin 1) with (fq 1). apply fq_eq. field. exact Hz.
Qed.

(** C6, as the code has it: the correlation table has one row and one
    column per ticker; it is symmetric; the entry of two tickers is the
    Pearson correlation of their returns over exactly the dates on which
    both have a finite return; a diagonal entry is 1.0 when the ticker's
    finite returns are not all equal and NaN when they are (or when there
    is none). *)
Theorem correlation_pairwise_complete (rows : list ReturnRecord) (df_pivot : WideFrame) :
  pivot rows = Ok df_pivot ->
  let ts := tickers_of rows in
  let m := calculate_correlation sqrtQ df_pivot in
  let entry := fun i j => nth j (snd (nth i m (""%string, []))) NaN in
  map fst m = ts /\
  forall i j, (i < length ts)%nat -> (j < length ts)%nat ->
    entry i j = entry j i /\
    entry i j =
      pearson_pairs sqrtQ
        (common_observations (nth (Nat.max i j) ts ""%string)
                             (nth (Nat.min i j) ts ""%string) rows) /\
    let qs := finite_values (map (fun d => cell d (nth i ts ""%string) rows)
                                 (dates_in rows)) in
    ((exists a b, In a qs /\ In b qs /\ ~ a == b) -> entry i i = Fin 1) /\
    (forall c, Forall (fun a => a == c) qs -> entry i i = NaN).
Proof using sqrt_square.
  intros Hp. destruct (pivot_columns _ _ Hp) as [Hidx Hcols]. cbv zeta.
  unfold calculate_correlation.
  assert (Hlen : length (columns df_pivot) = length (tickers_of rows)).
  { now rewrite Hcols, length_map. }
  assert (Hcol : forall k, (k < length (tickers_of rows))%nat ->
            snd (nth k (columns df_pivot) (""%string, [])) =
            map (fun d => cell d (nth k (tickers_of rows) ""%string) rows) (dates_in rows)).
  { intros k Hk. rewrite Hcols.
    now rewrite (nth_map_in _ _ _ _ ""%string Hk). }
  split.
  { rewrite corr_names. unfold column_names. rewrite Hcols, map_map. simpl.
    apply map_id. }
  intros i j Hi Hj.
  rewrite !corr_lookup by lia.
  split; [apply corr_entry_sym|]. split.
  - unfold corr_entry, pearson.
    rewrite !Hcol by lia. now rewrite paired_map.
  - unfold corr_entry. rewrite Nat.max_id, Nat.min_id, Hcol by exact Hi.
    rewrite pearson_self.
    set (qs := finite_values _). split.
    + intros (a & b & Ha & Hb & Hne).
      destruct (Nat.ltb_spec (length qs) 1) as [Hl|_].
      { destruct qs; [destruct Ha|simpl in Hl; lia]. }
      pose proof (Qss_distinct qs a b Ha Hb Hne) as Hnz.
      destruct (Qeq_bool (Qss qs) 0) eqn:E; [|reflexivity].
      apply Qeq_bool_iff in E. contradiction.
    + intros c Hc. destruct (Nat.ltb (length qs) 1); [reflexivity|].
      pose proof (Qss_const c qs Hc) as Hz. apply Qeq_bool_iff in Hz.
      now rewrite Hz.
Qed.

End CorrelationFacts.

Lemma lookup_col_map (g : string -> list float) ts t c :
  lookup_col t (map (fun k => (k, g k)) ts) = Some c -> c = g t.
Proof.
  induction ts as [|k ts IH]; simpl; [discriminate|].
  destruct (String.eqb_spec k t) as [->|_]; [now intros [= <-]|exact IH].
Qed.

Lemma cell_in_group d t rows :
  cell d t rows = NaN \/ In (cell d t rows) (group_values t rows).
Proof.
  unfold cell. destruct (find (same_cell d t) rows) as [r|] eqn:E; [|now left].
  right. apply find_some in E. destruct E as [Hin Hc].
  unfold same_cell in Hc. apply andb_true_iff in Hc. destruct Hc as [_ Ht].
  unfold group_values, records_of. apply in_map. apply List.filter_In. auto.
Qed.

Lemma pivot_column_cells rows p t ct x :
  pivot rows = Ok p -> lookup_col t (columns p) = Some ct -> In x ct ->
  x = NaN \/ In x (group_values t rows).
Proof.
  intros Hp Hl Hx. destruct (pivot_columns _ _ Hp) as [_ Hc].
  rewrite Hc in Hl.
  apply (lookup_col_map (fun k => map (fun d => cell d k rows) (dates_in rows))) in Hl.
  subst ct. apply in_map_iff in Hx. destruct Hx as (d & <- & _).
  apply cell_in_group.
Qed.

Lemma paired_finite x y :
  exists qps,
    paired x y = map fin_pair qps /\
    forall ab, In ab qps -> In (Fin (fst ab)) x /\ In (Fin (snd ab)) y.
Proof.
  unfold paired. revert y. induction x as [|a x IH]; intros [|b y]; simpl;
    try (exists []; split; [reflexivity|intros ? []]).
  destruct (IH y) as (qps & Hq & Hin).
  unfold both_finite at 1. simpl.
  destruct a as [qa| | |], b as [qb| | |]; simpl;
    try (exists qps; split; [exact Hq|]; intros ab Hab;
         destruct (Hin ab Hab); auto).
  exists ((qa, qb) :: qps). split; [simpl; now rewrite Hq|].
  intros ab [<-|Hab]; simpl; auto. destruct (Hin ab Hab); auto.
Qed.

Section DegenerateFacts.

Variable sqrtQ : Q -> Q.

Hypothesis sqrt_0 : sqrtQ 0 == 0.

Lemma std_few xs : (length (valid xs) <= 1)%nat -> std sqrtQ xs = NaN.
Proof.
  intros H. unfold std, var. apply Nat.leb_le in H. now rewrite H.
Qed.

Lemma all_Fin_map c xs :
  Forall (fun x => exists a, x = Fin a /\ a == c) xs ->
  exists qs, xs = map Fin qs /\ Forall (fun a => a == c) qs.
Proof.
  induction 1 as [|x xs (a & -> & Ha) _ (qs & -> & Hqs)].
  - exists []. split; [reflexivity|constructor].
  - exists (a :: qs). split; [reflexivity|now constructor].
Qed.

Lemma std_constant c xs :
  (2 <= length xs)%nat ->
  Forall (fun x => exists a, x = Fin a /\ a == c) xs ->
  std sqrtQ xs = Fin 0.
Proof using sqrt_0.
  intros Hn H. destruct (all_Fin_map c xs H) as (qs & -> & Hqs).
  rewrite length_map in Hn. rewrite std_Fin by exact Hn.
  rewrite (Qred_complete _ 0) by (now apply (Qvar_const c)).
  apply fq_zero. exact sqrt_0.
Qed.

Lemma fmul_zero_fsqrt : fmul (Fin 0) (fsqrt sqrtQ f252) = Fin 0.
Proof. simpl. apply fq_zero. ring. Qed.

Lemma fsqrt_zero : fsqrt sqrtQ (Fin 0) = Fin 0.
Proof using sqrt_0. simpl. apply fq_zero. exact sqrt_0. Qed.

(** Zero spread on either side makes the divisor zero. *)
Lemma pearson_pairs_degenerate qps :
  Qss (map fst qps) == 0 \/ Qss (map snd qps) == 0 ->
  pearson_pairs sqrtQ (map fin_pair qps) = NaN.
Proof using sqrt_0.
  intros Hz. unfold pearson_pairs.
  destruct (Nat.ltb_spec (length (map fin_pair qps)) 1) as [|Hn]; [reflexivity|].
  assert (Hfst : map fst (map fin_pair qps) = map Fin (map fst qps))
    by (rewrite !map_map; reflexivity).
  assert (Hsnd : map snd (map fin_pair qps) = map Fin (map snd qps))
    by (rewrite !map_map; reflexivity).
  rewrite Hfst, Hsnd, !fsum_Fin.
  rewrite length_map in Hn.
  replace (fdiv (fq (Qsum (map fst qps))) (of_nat (length (map fin_pair qps))))
    with (fq (Qmean (map fst qps)))
    by (unfold Qmean, Qcount; rewrite !length_map; now rewrite fdiv_count).
  replace (fdiv (fq (Qsum (map snd qps))) (of_nat (length (map fin_pair qps))))
    with (fq (Qmean (map snd qps)))
    by (unfold Qmean, Qcount; rewrite !length_map; now rewrite fdiv_count).
  assert (Hx : fsum (map (fun p => sq_dev (fq (Qmean (map fst qps))) (fst p))
                         (map fin_pair qps)) = fq (Qss (map fst qps))).
  { rewrite map_map. simpl.
    rewrite <- (map_map fst (fun a => sq_dev (fq (Qmean (map fst qps))) (Fin a))).
    rewrite <- (map_map Fin (sq_dev (fq (Qmean (map fst qps))))).
    now rewrite (fsum_map_Fin _ (fun x => Qsq (x - Qmean (map fst qps))))
      by (intros; apply sq_dev_fq). }
  assert (Hy : fsum (map (fun p => sq_dev (fq (Qmean (map snd qps))) (snd p))
                         (map fin_pair qps)) = fq (Qss (map snd qps))).
  { rewrite map_map. simpl.
    rewrite <- (map_map snd (fun a => sq_dev (fq (Qmean (map snd qps))) (Fin a))).
    rewrite <- (map_map Fin (sq_dev (fq (Qmean (map snd qps))))).
    now rewrite (fsum_map_Fin _ (fun x => Qsq (x - Qmean (map snd qps))))
      by (intros; apply sq_dev_fq). }
  rewrite Hx, Hy.
  assert (Hm : fmul (fq (Qss (map fst qps))) (fq (Qss (map snd qps))) = Fin 0).
  { simpl. apply fq_zero. rewrite !Qred_correct.
    destruct Hz as [Hz|Hz]; rewrite Hz; ring. }
  rewrite Hm, fsqrt_zero. reflexivity.
Qed.

Lemma pearson_constant c x y :
  (forall a, In (Fin a) x -> a == c) ->
  pearson sqrtQ x y = NaN /\ pearson sqrtQ y x = NaN.
Proof using sqrt_0.
  intros Hc. unfold pearson. split.
  - destruct (paired_finite x y) as (qps & -> & Hin).
    apply pearson_pairs_degenerate. left. apply (Qss_const c).
    rewrite List.Forall_map. apply List.Forall_forall.
    intros ab Hab. apply Hc. now apply Hin.
  - destruct (paired_finite y x) as (qps & -> & Hin).
    apply pearson_pairs_degenerate. right. apply (Qss_const c).
    rewrite List.Forall_map. apply List.Forall_forall.
    intros ab Hab. apply Hc. now apply Hin.
Qed.

Lemma describe_no_observation xs :
  valid xs = [] -> describe sqrtQ xs = mkDescribe 0 NaN NaN NaN NaN NaN NaN NaN.
Proof.
  intros H. unfold describe, mean, std, var, fmin_list, fmax_list, quantile.
  rewrite H. reflexivity.
Qed.

(** C8: on degenerate input every [calculate_*] function returns (the
    first three with the store as it was).  Without rows the tables are
    empty.  A ticker without any observation has an all-NaN descriptive
    row; with at most one observation its standard deviation, volatility
    and Sharpe ratio are NaN.  A ticker whose observations are all equal
    has zero standard deviation and volatility, a Sharpe ratio that is an
    infinity or NaN, and NaN correlation with every column. *)
Theorem degenerate_series_do_not_raise (h : heap) (df : loc) (f : LongFrame)
    (risk_free_rate : option float) :
  h !! df = Some f ->
  exists stats vol sharpe h',
    calculate_statistics sqrtQ df h = Some (stats, h) /\
    calculate_annualized_volatility sqrtQ df h = Some (vol, h) /\
    calculate_sharpe_ratio sqrtQ df risk_free_rate h = Some (sharpe, h) /\
    calculate_cumulative_returns df h = Some (df, h') /\
    (rows f = [] ->
       stats = [] /\ vol = [] /\ sharpe = [] /\
       pivot (rows f) = Ok (mkWide [] []) /\
       calculate_correlation sqrtQ (mkWide [] []) = [] /\
       df_cumulative (mkWide [] []) = mkWide [] [] /\
       rolling_vol sqrtQ (mkWide [] []) = mkWide [] []) /\
    forall t, In t (map ticker (rows f)) ->
      let xs := group_values t (rows f) in
      (valid xs = [] ->
         lookup_key t stats = Some (mkDescribe 0 NaN NaN NaN NaN NaN NaN NaN)) /\
      ((length (valid xs) <= 1)%nat ->
         (exists d, lookup_key t stats = Some d /\ d_std d = NaN) /\
         lookup_key t vol = Some NaN /\
         lookup_key t sharpe = Some NaN) /\
      (forall c, (2 <= length xs)%nat ->
         Forall (fun x => exists a, x = Fin a /\ a == c) xs ->
         (exists d, lookup_key t stats = Some d /\ d_std d = Fin 0) /\
         lookup_key t vol = Some (Fin 0) /\
         (exists s, lookup_key t sharpe = Some s /\ isfinite s = false) /\
         forall p ct y, pivot (rows f) = Ok p ->
           lookup_col t (columns p) = Some ct ->
           pearson sqrtQ ct y = NaN /\ pearson sqrtQ y ct = NaN).
Proof using sqrt_0.
  intros Hh.
  exists (statistics_of sqrtQ (rows f)), (annualized_volatility_of sqrtQ (rows f)),
    (sharpe_ratio_of sqrtQ (rows f) (default (Fin 0) risk_free_rate)).
  eexists. run_store. rewrite Hh. cbn match. rewrite Hh.
  do 4 (split; [reflexivity|]). split.
  { intros Hr. rewrite Hr. repeat split. }
  intros t Ht. cbv zeta. split; [|split].
  - intros Hv. unfold statistics_of. rewrite lookup_groupby by exact Ht.
    f_equal. now apply describe_no_observation.
  - intros Hfew. repeat split.
    + eexists. split; [apply lookup_groupby; exact Ht|]. simpl. now apply std_few.
    + rewrite lookup_volatility by exact Ht. now rewrite std_few.
    + rewrite lookup_sharpe by exact Ht. rewrite std_few by exact Hfew.
      simpl. now destruct (fsub _ _).
  - intros c Hn Hc. split; [|split; [|split]].
    + eexists. split; [apply lookup_groupby; exact Ht|]. simpl.
      now apply (std_constant c).
    + rewrite lookup_volatility by exact Ht.
      rewrite (std_constant c) by assumption. now rewrite fmul_zero_fsqrt.
    + rewrite lookup_sharpe by exact Ht.
      rewrite (std_constant c) by assumption. rewrite fmul_zero_fsqrt.
      eexists. split; [reflexivity|apply fdiv_zero_not_finite].
    + intros p ct y Hp Hl. apply (pearson_constant c).
      intros a Ha.
      destruct (pivot_column_cells _ _ _ _ _ Hp Hl Ha) as [E|Hin]; [discriminate|].
      rewrite List.Forall_forall in Hc.
      destruct (Hc _ Hin) as (a' & [= ->] & Ha'). exact Ha'.
Qed.

End DegenerateFacts.

(** * Cumulative returns *)

Lemma df_cumulative_column df_pivot t :
  lookup_col t (columns (df_cumulative df_pivot)) =
  option_map cumulative (lookup_col t (columns df_pivot)).
Proof. apply lookup_map_columns. Qed.

Lemma fadd_one_isnan x : isnan (fadd f1 x) = isnan x.
Proof. now destruct x. Qed.

Lemma cumprod_from_own (g k : float -> float) acc c :
  (forall x, isnan (g x) = isnan x) ->
  map snd (List.filter (fun xc => notna (fst xc))
             (combine c (map k (cumprod_from acc (map g c))))) =
  map k (cumprod_from acc (map g (valid c))).
Proof.
  intros Hg. unfold valid, notna. revert acc.
  induction c as [|x c IH]; intros acc; [reflexivity|].
  cbn [map cumprod_from List.filter]. rewrite Hg.
  destruct (isnan x) eqn:E;
    cbn [map combine List.filter fst negb snd cumprod_from];
    rewrite ?E, ?Hg, ?E; cbn [negb map snd]; [apply IH|f_equal; apply IH].
Qed.

(** In a pivot column the running product advances only on the rows where
    the ticker has a return: the cumulative series read on those rows is
    the cumulative series of the ticker's own return sequence. *)
Lemma cumulative_own_sequence c :
  map snd (List.filter (fun xc => notna (fst xc)) (combine c (cumulative c))) =
  cumulative (valid c).
Proof. unfold cumulative, cumprod. apply cumprod_from_own, fadd_one_isnan. Qed.

Lemma fmul_iter_shift p x i :
  fmul_iter (fmul p x) x i = fmul (fmul_iter p x i) x.
Proof. induction i as [|i IH]; simpl; [reflexivity|now rewrite IH]. Qed.

Lemma cumprod_from_repeat p x n i :
  isnan x = false -> (i < n)%nat ->
  nth i (cumprod_from (Some p) (repeat x n)) NaN = fmul_iter p x i.
Proof.
  intros Hx. revert p i. induction n as [|n IH]; intros p i Hi; [lia|].
  cbn [repeat cumprod_from]. rewrite Hx. destruct i as [|i]; [reflexivity|].
  cbn [nth]. rewrite IH by lia. apply fmul_iter_shift.
Qed.

Lemma cumprod_repeat x n i :
  isnan x = false -> (i < n)%nat ->
  nth i (cumprod (repeat x n)) NaN = fpow_succ x i.
Proof.
  intros Hx Hi. unfold cumprod. destruct n as [|n]; [lia|].
  cbn [repeat cumprod_from]. rewrite Hx. destruct i as [|i]; [reflexivity|].
  cbn [nth]. rewrite cumprod_from_repeat by (auto; lia).
  clear. induction i as [|i IH]; [reflexivity|]. simpl. now rewrite IH.
Qed.

Lemma cumprod_from_length acc xs : length (cumprod_from acc xs) = length xs.
Proof.
  revert acc. induction xs as [|x xs IH]; intros acc; simpl; [reflexivity|].
  destruct (isnan x); simpl; now rewrite IH.
Qed.

(** Under a constant return [r] the cumulative return after [i + 1] rows is
    (1 + r)^(i+1) - 1. *)
Lemma cumulative_constant r n i :
  isnan r = false -> (i < n)%nat ->
  nth i (cumulative (repeat r n)) NaN = fsub (fpow_succ (fadd f1 r) i) f1.
Proof.
  intros Hr Hi. unfold cumulative. rewrite map_repeat.
  rewrite (nth_map_in _ _ _ _ NaN)
    by (unfold cumprod; now rewrite cumprod_from_length, repeat_length).
  f_equal. apply cumprod_repeat; [now rewrite fadd_one_isnan|exact Hi].
Qed.

(** * Effects on the frame *)

Section FrameEffects.

Variable sqrtQ : Q -> Q.

(** C3, as the code has it: the statistics, volatility and Sharpe functions
    return a table that depends on the rows only and leave the store as it
    was, and so does [main], which never calls
    [calculate_cumulative_returns].  That function writes the column
    'cumulative_return' into the frame it is given and returns that frame;
    the rows (date, ticker, daily_return) are untouched, so a second call
    ends in the same store with the same result. *)
Theorem analytics_frame_effects (h : heap) (df : loc) (f : LongFrame)
    (risk_free_rate : option float) :
  h !! df = Some f ->
  calculate_statistics sqrtQ df h = Some (statistics_of sqrtQ (rows f), h) /\
  calculate_annualized_volatility sqrtQ df h =
    Some (annualized_volatility_of sqrtQ (rows f), h) /\
  calculate_sharpe_ratio sqrtQ df risk_free_rate h =
    Some (sharpe_ratio_of sqrtQ (rows f) (default (Fin 0) risk_free_rate), h) /\
  (exists report, main sqrtQ df h = Some (report, h)) /\
  let f' := mkLong (rows f)
              (<["cumulative_return"%string := cumulative (map daily_return (rows f))]>
                 (extra f)) in
  calculate_cumulative_returns df h = Some (df, <[df := f']> h) /\
  rows f' = rows f /\
  (df' ← calculate_cumulative_returns df; calculate_cumulative_returns df') h =
    Some (df, <[df := f']> h).
Proof.
  intros Hh. run_store. rewrite Hh. cbn -[cumulative pivot]. rewrite Hh.
  do 3 (split; [reflexivity|]). split.
  { destruct (pivot (rows f)); cbn; rewrite ?Hh; eauto. }
  repeat split.
  rewrite lookup_insert_eq. cbn -[cumulative]. rewrite lookup_insert_eq.
  cbn -[cumulative]. now rewrite !insert_insert_eq.
Qed.

End FrameEffects.

(** * The computable square root *)

Lemma Zsqrt_of_square_ratio (N m d : Z) :
  (0 < d)%Z -> (0 <= m)%Z -> (N * (d * d) = m * m)%Z -> (Z.sqrt N * d = m)%Z.
Proof.
  intros Hd Hm Heq.
  set (g := Z.gcd m d).
  assert (Hg : (0 < g)%Z).
  { pose proof (Z.gcd_nonneg m d).
    assert (g <> 0%Z); [|unfold g in *; lia].
    unfold g. intros E. apply Z.gcd_eq_0_r in E. lia. }
  destruct (Z.gcd_divide_l m d) as [m' Hm'].
  destruct (Z.gcd_divide_r m d) as [d' Hd'].
  fold g in Hm', Hd'.
  pose proof (Z.gcd_div_gcd m d g ltac:(lia) eq_refl) as Hcop.
  clearbody g.
  rewrite Hm', Hd', !Z.div_mul in Hcop by lia.
  assert (Hd'pos : (0 < d')%Z) by nia.
  assert (Hm'nn : (0 <= m')%Z) by nia.
  assert (Heq' : (N * (d' * d') = m' * m')%Z).
  { apply (Z.mul_cancel_r _ _ (g * g)); [nia|].
    rewrite Hm', Hd' in Heq. lia. }
  assert (Hdiv : (d' | m')%Z).
  { apply (Z.gauss d' m' m').
    - exists (N * d')%Z. lia.
    - now rewrite Z.gcd_comm. }
  assert (Hone : d' = 1%Z).
  { apply Z.divide_1_r_nonneg; [lia|].
    rewrite <- Hcop. apply Z.gcd_greatest; [exact Hdiv|apply Z.divide_refl]. }
  subst d'. rewrite Z.mul_1_l in Hd'.
  assert (HN : N = (m' * m')%Z) by lia.
  rewrite HN, Z.sqrt_square by exact Hm'nn. lia.
Qed.

Lemma Qsqrt_square a : 0 <= a -> Qsqrt (Qred (a * a)) == a.
Proof.
  intros Ha. unfold Qsqrt.
  set (r := Qred (Qred (a * a))).
  assert (Hr : r == a * a) by (unfold r; now rewrite !Qred_correct).
  unfold Qeq in *. simpl in *.
  rewrite Pos2Z.inj_mul in Hr.
  unfold Qle in Ha. simpl in Ha.
  apply Zsqrt_of_square_ratio; [reflexivity| |].
  - pose proof (Pos2Z.is_pos (Qden r)). nia.
  - transitivity ((Qnum r * (Z.pos (Qden a) * Z.pos (Qden a))) * Z.pos (Qden r))%Z;
      [ring|]. rewrite Hr. ring.
Qed.

Lemma Qsqrt_zero : Qsqrt 0 == 0.
Proof. reflexivity. Qed.

(** * Checks on the worked inputs *)

(** ** C1 *)

(** C1 fails for [calculate_cumulative_returns]: on a frame with two
    tickers the product runs through the rows of both.  The rows of B get
    0.485 (the product of all four growth factors so far, minus one) where
    B's own running product gives 0.5, as the pivot of [main] does. *)
Theorem cumulative_returns_cross_tickers :
  exists h' f' p,
    calculate_cumulative_returns 1%positive (store_of returns_two_tickers)
      = Some (1%positive, h') /\
    h' !! 1%positive = Some f' /\
    extra f' !! "cumulative_return"%string =
      Some [fl 1 10; fl (-1) 100; fl 97 200; fl 97 200] /\
    cumulative (group_values "B" returns_two_tickers) = [fl 1 2; fl 1 2] /\
    pivot returns_two_tickers = Ok p /\
    lookup_col "B" (columns (df_cumulative p)) = Some [fl 1 2; fl 1 2].
Proof.
  run_store. unfold store_of.
  rewrite lookup_singleton_eq. cbn match. rewrite lookup_singleton_eq. cbn match.
  do 3 eexists. split; [reflexivity|]. rewrite lookup_insert_eq.
  split; [reflexivity|]. cbn [extra]. rewrite lookup_insert_eq.
  repeat split; reflexivity.
Qed.

(** ** C2 *)

(** B is listed one date after A: A has three priced dates but keeps a
    single record, whatever the fill method. *)
Lemma count_depends_on_other_tickers :
  (exists out, transform_data true prices_late_listing ["A"; "B"]%string = Some out /\
               length (records_of "A" out) = 1%nat) /\
  (exists out, transform_data false prices_late_listing ["A"; "B"]%string = Some out /\
               length (records_of "A" out) = 1%nat) /\
  (defined_prices "A" prices_late_listing - 1 = 2)%nat.
Proof. repeat split; eexists; split; reflexivity. Qed.

Lemma prices_full_full : full_prices prices_full.
Proof. repeat constructor. Qed.

(** With both tickers priced on the three dates, B has two records. *)
Lemma transform_count_full_coverage_witness :
  exists out,
    transform_data true (CloseFrame prices_full) ["A"; "B"]%string = Some out /\
    length (records_of "B" out) = 2%nat.
Proof.
  eexists. split; [reflexivity|].
  refine (proj1 (transform_count_full_coverage true (CloseFrame prices_full)
                   ["A"; "B"]%string (DataFrame prices_full) _ "B"%string
                   _ eq_refl prices_full_full eq_refl _)).
  - repeat constructor; simpl; intuition discriminate.
  - simpl. auto.
Defined.

(** ** C4 *)

(** Three tickers requested, two columns: no records at all. *)
Lemma missing_ticker_fails :
  transform_data true (CloseFrame prices_full) ["A"; "B"; "C"]%string = None /\
  transform_data false (CloseFrame prices_full) ["A"; "B"; "C"]%string = None.
Proof. split; reflexivity. Qed.

(** One column A, tickers A and C: records for A only; two columns A and B,
    tickers A, B and C: [None]. *)
Lemma transform_missing_ticker_witness :
  (exists out,
     transform_data true (CloseFrame prices_single) ["A"; "C"]%string = Some out /\
     records_of "C" out = [] /\
     dates_of "A" out = [2; 3]%Z) /\
  transform_data true (CloseFrame prices_full) ["A"; "B"; "C"]%string = None.
Proof.
  split.
  - assert (Hin : In "C"%string ["A"; "C"]%string) by (simpl; auto).
    assert (Hout : ~ In "C"%string (column_names prices_single))
      by (simpl; intuition discriminate).
    assert (Hd : "C"%string <> "Date"%string) by discriminate.
    destruct (proj1 (transform_missing_ticker true prices_single _ _ Hin Hd Hout))
      as (out & H1 & H2 & H3).
    { split; [simpl; lia|reflexivity]. }
    exists out. repeat split; auto.
    apply (H3 "A"%string). simpl. auto.
  - assert (Hin : In "C"%string ["A"; "B"; "C"]%string) by (simpl; auto).
    assert (Hout : ~ In "C"%string (column_names prices_full))
      by (simpl; intuition discriminate).
    assert (Hd : "C"%string <> "Date"%string) by discriminate.
    apply (proj2 (transform_missing_ticker true prices_full _ _ Hin Hd Hout)).
    simpl. intros [_ H]. discriminate.
Defined.

(** ** C9, C10 *)

(** A two-column table without rows: no records and no error for the two
    tickers, [None] when a single ticker is requested. *)
Lemma transform_empty_table_witness :
  transform_data true prices_no_rows ["A"; "B"]%string = Some [] /\
  transform_data true prices_no_rows ["A"]%string = None.
Proof.
  split.
  - apply (proj1 (transform_empty_table true prices_no_rows ["A"; "B"]%string
                    eq_refl)).
    simpl. split; [lia|]. right. apply incl_refl.
  - apply (proj2 (transform_empty_table true prices_no_rows ["A"]%string eq_refl)
             _ eq_refl eq_refl).
Defined.

(** C9 fails as stated: an empty ticker-keyed table with one column and
    that one ticker requested is not transformed into the empty sequence;
    [to_frame] raises and [None] is returned, whatever the fill method. *)
Lemma empty_table_one_ticker_fails :
  close_index (CloseFrame (mkWide [] [("A"%string, [])])) = [] /\
  transform_data true (CloseFrame (mkWide [] [("A"%string, [])])) ["A"]%string = None /\
  transform_data false (CloseFrame (mkWide [] [("A"%string, [])])) ["A"]%string = None.
Proof. repeat split. Qed.

(** With B listed late a single date survives, for both tickers. *)
Lemma transform_output_rectangular_witness :
  exists adj_close,
    select_close prices_late_listing ["A"; "B"]%string = Ok adj_close /\
    index (returns_frame true adj_close) = [3]%Z /\
    emitted_tickers true adj_close ["A"; "B"]%string = ["A"; "B"]%string.
Proof.
  assert (Hnd : List.NoDup ["A"; "B"]%string)
    by (repeat constructor; simpl; intuition discriminate).
  destruct (transform_output_rectangular true prices_late_listing
              ["A"; "B"]%string _ Hnd eq_refl) as (adj & Hs & _).
  exists adj. split; [exact Hs|].
  injection Hs as <-. split; reflexivity.
Defined.

(** ** C3 *)

(** The frame passed to [calculate_cumulative_returns] has no column
    'cumulative_return' before the call and has one after it. *)
Lemma cumulative_returns_adds_column :
  exists h' f',
    calculate_cumulative_returns 1%positive (store_of returns_two_tickers)
      = Some (1%positive, h') /\
    h' !! 1%positive = Some f' /\
    extra (mkLong returns_two_tickers ∅) !! "cumulative_return"%string = None /\
    extra f' !! "cumulative_return"%string =
      Some [fl 1 10; fl (-1) 100; fl 97 200; fl 97 200].
Proof.
  run_store. unfold store_of.
  rewrite lookup_singleton_eq. cbn match. rewrite lookup_singleton_eq. cbn match.
  do 2 eexists. split; [reflexivity|]. rewrite lookup_insert_eq.
  split; [reflexivity|]. cbn [extra]. rewrite lookup_insert_eq, lookup_empty.
  split; reflexivity.
Qed.

(** The volatility table is computed and the store is the one given. *)
Lemma analytics_frame_effects_witness :
  calculate_annualized_volatility Qsqrt 1%positive (store_of returns_two_tickers) =
    Some (annualized_volatility_of Qsqrt returns_two_tickers, store_of returns_two_tickers).
Proof.
  refine (proj1 (proj2 (analytics_frame_effects Qsqrt (store_of returns_two_tickers)
                          1%positive (mkLong returns_two_tickers ∅) None _))).
  reflexivity.
Defined.

(** ** C5 *)

(** A has 30 returns, none on the second of the 31 dates.  Entry 29 of the
    rolling volatility of its own sequence (window 30) is defined and falls
    on date 31, but [main] has no value for A on date 31: the window of
    pivot rows still holds the gap. *)
Lemma rolling_gap_undefined :
  exists p,
    pivot returns_with_gap = Ok p /\
    let own := by_ticker "A" returns_with_gap in
    length own = 30%nat /\
    fst (nth 29 own (0%Z, NaN)) = 31%Z /\
    isnan (nth 29 (rolling_volatility_spec Qsqrt 30 (map snd own)) NaN) = false /\
    lookup_cell (rolling_vol Qsqrt p) 31%Z "A" = NaN.
Proof. eexists. split; [reflexivity|]. vm_compute. repeat split. Qed.

(** Window 2 on a two-row pivot: the first row of A is missing. *)
Lemma rolling_volatility_window_witness :
  exists p out,
    pivot returns_two_tickers = Ok p /\
    lookup_col "A" (columns (rolling_volatility Qsqrt 2 p)) = Some out /\
    nth 0 out NaN = NaN.
Proof.
  eexists.
  destruct (rolling_volatility_window Qsqrt 2 _ "A"%string [fl 1 10; fl (-1) 10]
              (eq_refl : lookup_col "A" (columns (mkWide [1; 2]%Z
                 [("A"%string, [fl 1 10; fl (-1) 10]);
                  ("B"%string, [fl 1 2; fl 0 1])])) = Some _))
    as (out & Hl & _ & Hi & _).
  exists out. split; [reflexivity|]. split; [exact Hl|].
  apply (proj1 (Hi 0%nat ltac:(simpl; lia))). lia.
Defined.

(** ** C6 *)

(** A is constant: its diagonal entry is NaN, not 1.0. *)
Lemma correlation_diagonal_nan :
  exists p,
    pivot returns_constant_A = Ok p /\
    calculate_correlation Qsqrt p =
      [("A"%string, [NaN; NaN]); ("B"%string, [NaN; Fin 1])].
Proof. eexists. split; [reflexivity|]. vm_compute. reflexivity. Qed.

(** The table is labelled by the tickers, in order. *)
Lemma correlation_pairwise_complete_witness :
  exists p,
    pivot returns_constant_A = Ok p /\
    map fst (calculate_correlation Qsqrt p) = ["A"; "B"]%string.
Proof.
  eexists. split; [reflexivity|].
  exact (proj1 (correlation_pairwise_complete Qsqrt Qsqrt_square
                  returns_constant_A _ eq_refl)).
Defined.

(** ** C7, C8 *)


(** The Sharpe ratio of the constant ticker A is not a finite number. *)
Lemma degenerate_series_do_not_raise_witness :
  exists sharpe s,
    calculate_sharpe_ratio Qsqrt 1%positive None (store_of returns_constant_A) =
      Some (sharpe, store_of returns_constant_A) /\
    lookup_key "A" sharpe = Some s /\ isfinite s = false.
Proof.
  destruct (degenerate_series_do_not_raise Qsqrt Qsqrt_zero
              (store_of returns_constant_A) 1%positive
              (mkLong returns_constant_A ∅) None)
    as (stats & vol & sharpe & h' & _ & _ & Hs & _ & _ & Hall).
  - reflexivity.
  - exists sharpe.
    destruct (Hall "A"%string ltac:(simpl; auto)) as (_ & _ & Hconst).
    destruct (Hconst (1 # 10) ltac:(simpl; lia)) as (_ & _ & (s & Hl & Hf) & _).
    + repeat constructor; eexists; split; reflexivity.
    + exists s. auto.
Defined.

(** * Further properties: the pivot of [main] *)

Section SortedKeys.

Context {A : Type} (cmp : A -> A -> comparison).
Hypothesis cmp_eq : forall x y, cmp x y = Eq -> x = y.
Hypothesis cmp_antisym : forall x y, cmp x y = CompOpp (cmp y x).
Hypothesis cmp_trans : forall x y z, cmp x y = Lt -> cmp y z = Lt -> cmp x z = Lt.

Let lt (x y : A) : Prop := cmp x y = Lt.

Lemma cmp_refl x : cmp x x = Eq.
Proof using cmp_antisym.
  pose proof (cmp_antisym x x) as H. destruct (cmp x x); simpl in H; congruence.
Qed.

Lemma insert_key_sorted k ks :
  StronglySorted lt ks -> StronglySorted lt (insert_key cmp k ks).
Proof using cmp_eq cmp_antisym cmp_trans.
  induction 1 as [|h ks Hs IH Hh]; simpl.
  - repeat constructor.
  - destruct (cmp k h) eqn:E.
    + now constructor.
    + constructor; [now constructor|]. constructor; [exact E|].
      eapply List.Forall_impl; [|exact Hh]. intros x Hx. exact (cmp_trans _ _ _ E Hx).
    + constructor; [exact IH|]. apply List.Forall_forall. intros x Hx.
      apply insert_key_In in Hx; [|exact cmp_eq].
      destruct Hx as [->|Hx].
      * unfold lt. rewrite cmp_antisym, E. reflexivity.
      * rewrite List.Forall_forall in Hh. now apply Hh.
Qed.

Lemma sorted_keys_sorted l : StronglySorted lt (sorted_keys cmp l).
Proof using cmp_eq cmp_antisym cmp_trans.
  induction l as [|a l IH]; simpl; [constructor|now apply insert_key_sorted].
Qed.

Lemma sorted_head_not_in x l :
  Forall (lt x) l -> ~ In x l.
Proof using cmp_antisym.
  intros H Hin. rewrite List.Forall_forall in H. specialize (H x Hin).
  unfold lt in H. rewrite cmp_refl in H. discriminate.
Qed.

(** A strictly ascending list is determined by its elements. *)
Lemma sorted_unique l1 l2 :
  StronglySorted lt l1 -> StronglySorted lt l2 ->
  (forall x, In x l1 <-> In x l2) -> l1 = l2.
Proof using cmp_eq cmp_antisym cmp_trans.
  intros H1. revert l2. induction H1 as [|a l1 Hs1 IH Ha]; intros l2 H2 Hiff.
  - destruct l2 as [|b l2]; [reflexivity|].
    exfalso. apply (proj2 (Hiff b)). now left.
  - destruct H2 as [|b l2 Hs2 Hb].
    { exfalso. apply (proj1 (Hiff a)). now left. }
    assert (Hab : a = b).
    { destruct (proj1 (Hiff a) (or_introl eq_refl)) as [E|Hin]; [now symmetry|].
      destruct (proj2 (Hiff b) (or_introl eq_refl)) as [E|Hin']; [exact E|].
      rewrite List.Forall_forall in Ha, Hb.
      pose proof (Ha b Hin') as L1. pose proof (Hb a Hin) as L2.
      unfold lt in *. rewrite cmp_antisym, L2 in L1. discriminate. }
    subst b. f_equal. apply IH; [exact Hs2|].
    intros x. split; intros Hx.
    + destruct (proj1 (Hiff x) (or_intror Hx)) as [E|Hin]; [|exact Hin].
      subst x. exfalso. exact (sorted_head_not_in _ _ Ha Hx).
    + destruct (proj2 (Hiff x) (or_intror Hx)) as [E|Hin]; [|exact Hin].
      subst x. exfalso. exact (sorted_head_not_in _ _ Hb Hx).
Qed.

Lemma sorted_keys_perm l l' :
  Permutation l l' -> sorted_keys cmp l = sorted_keys cmp l'.
Proof using cmp_eq cmp_antisym cmp_trans.
  intros Hp. apply sorted_unique; try apply sorted_keys_sorted.
  intros x. rewrite !sorted_keys_In by exact cmp_eq.
  split; apply Permutation_in; [exact Hp|now symmetry].
Qed.

Lemma sorted_NoDup l : StronglySorted lt l -> List.NoDup l.
Proof using cmp_antisym.
  induction 1 as [|a l Hs IH Ha]; constructor; auto.
  now apply sorted_head_not_in.
Qed.

End SortedKeys.

Lemma Zcompare_trans x y z :
  Z.compare x y = Lt -> Z.compare y z = Lt -> Z.compare x z = Lt.
Proof. rewrite !Z.compare_lt_iff. lia. Qed.

Lemma string_compare_trans x y z :
  String.compare x y = Lt -> String.compare y z = Lt -> String.compare x z = Lt.
Proof.
  intros H1 H2. apply OrderedTypeEx.String_as_OT.cmp_lt.
  apply OrderedTypeEx.String_as_OT.cmp_lt in H1, H2.
  eapply OrderedTypeEx.String_as_OT.lt_trans; eassumption.
Qed.

Lemma Zcompare_eq x y : Z.compare x y = Eq -> x = y.
Proof. apply Z.compare_eq. Qed.

Lemma dates_in_sorted rows :
  StronglySorted (fun a b => Z.compare a b = Lt) (dates_in rows).
Proof.
  apply sorted_keys_sorted;
    [apply Zcompare_eq|intros x y; apply Z.compare_antisym|apply Zcompare_trans].
Qed.

Lemma tickers_of_sorted rows : StronglySorted string_lt (tickers_of rows).
Proof.
  apply sorted_keys_sorted;
    [apply String.compare_eq_iff|apply String.compare_antisym|apply string_compare_trans].
Qed.

Lemma same_cell_key d t r : same_cell d t r = true <-> cell_key r = (d, t).
Proof.
  unfold same_cell, cell_key. rewrite andb_true_iff, Z.eqb_eq, String.eqb_eq.
  split; [intros [-> ->]; reflexivity|intros [= -> ->]; auto].
Qed.

Lemma existsb_same_cell d t rows :
  existsb (same_cell d t) rows = true <-> In (d, t) (map cell_key rows).
Proof.
  rewrite existsb_exists, in_map_iff. split.
  - intros (r & Hin & Hc). exists r. split; [now apply same_cell_key|exact Hin].
  - intros (r & Hk & Hin). exists r. split; [exact Hin|now apply same_cell_key].
Qed.

Lemma has_duplicate_cell_NoDup rows :
  has_duplicate_cell rows = false <-> List.NoDup (map cell_key rows).
Proof.
  induction rows as [|r rows IH]; simpl.
  - split; [constructor|reflexivity].
  - rewrite orb_false_iff, IH. split.
    + intros [He Hn]. constructor; [|exact Hn].
      intros Hin. apply (existsb_same_cell (rec_date r) (ticker r)) in Hin.
      congruence.
    + intros Hn. inversion Hn as [|? ? Hnotin Hn']; subst. split; [|exact Hn'].
      destruct (existsb _ rows) eqn:E; [|reflexivity].
      apply existsb_same_cell in E. contradiction.
Qed.

Lemma NoDup_key_inj rows r r' :
  List.NoDup (map cell_key rows) -> In r rows -> In r' rows ->
  cell_key r = cell_key r' -> r = r'.
Proof.
  induction rows as [|x rows IH]; simpl; [tauto|].
  intros Hn Hr Hr' Hk. inversion Hn as [|? ? Hnotin Hn']; subst.
  destruct Hr as [->|Hr], Hr' as [->|Hr']; auto.
  - exfalso. apply Hnotin. rewrite Hk. now apply in_map.
  - exfalso. apply Hnotin. rewrite <- Hk. now apply in_map.
Qed.

Lemma find_record rows r :
  List.NoDup (map cell_key rows) -> In r rows ->
  find (same_cell (rec_date r) (ticker r)) rows = Some r.
Proof.
  intros Hn Hin.
  destruct (find _ rows) as [r'|] eqn:E.
  - apply find_some in E. destruct E as [Hin' Hc].
    apply same_cell_key in Hc. f_equal.
    now apply (NoDup_key_inj rows).
  - exfalso. pose proof (find_none _ _ E r Hin) as Hc.
    assert (same_cell (rec_date r) (ticker r) r = true)
      by (now apply same_cell_key).
    congruence.
Qed.

Lemma cell_of_record rows r :
  List.NoDup (map cell_key rows) -> In r rows ->
  cell (rec_date r) (ticker r) rows = daily_return r.
Proof. intros Hn Hin. unfold cell. now rewrite find_record. Qed.

Lemma cell_absent rows d t :
  ~ In (d, t) (map cell_key rows) -> cell d t rows = NaN.
Proof.
  intros Hn. unfold cell. destruct (find _ rows) as [r|] eqn:E; [|reflexivity].
  apply find_some in E. destruct E as [Hin Hc]. apply same_cell_key in Hc.
  exfalso. apply Hn. rewrite <- Hc. now apply in_map.
Qed.

Lemma cell_perm rows rows' d t :
  List.NoDup (map cell_key rows) -> Permutation rows rows' ->
  cell d t rows = cell d t rows'.
Proof.
  intros Hn Hp.
  assert (Hn' : List.NoDup (map cell_key rows')).
  { eapply Permutation_NoDup; [|exact Hn]. now apply Permutation_map. }
  destruct (existsb (same_cell d t) rows) eqn:Hex.
  - apply existsb_same_cell in Hex. rename Hex into Hin.
    apply in_map_iff in Hin. destruct Hin as (r & Hk & Hin).
    injection Hk as <- <-.
    rewrite (cell_of_record rows r Hn Hin).
    symmetry. apply cell_of_record; [exact Hn'|].
    eapply Permutation_in; eassumption.
  - assert (Hout : ~ In (d, t) (map cell_key rows)).
    { intros Hin. apply existsb_same_cell in Hin. congruence. }
    rewrite (cell_absent rows d t Hout). symmetry. apply cell_absent.
    intros Hin. apply Hout. eapply Permutation_in; [|exact Hin].
    apply Permutation_map. now symmetry.
Qed.

(** The pivot does not depend on the order of the rows of the CSV: dates
    and tickers are sorted, and a cell is found by its labels. *)
Theorem pivot_row_order (rows rows' : list ReturnRecord) :
  Permutation rows rows' -> pivot rows = pivot rows'.
Proof.
  intros Hp. unfold pivot.
  assert (Hd : has_duplicate_cell rows = has_duplicate_cell rows').
  { destruct (has_duplicate_cell rows) eqn:E, (has_duplicate_cell rows') eqn:E';
      try reflexivity.
    - apply has_duplicate_cell_NoDup in E'.
      assert (has_duplicate_cell rows = false); [|congruence].
      apply has_duplicate_cell_NoDup.
      eapply Permutation_NoDup; [|exact E']. apply Permutation_map. now symmetry.
    - apply has_duplicate_cell_NoDup in E.
      assert (has_duplicate_cell rows' = false); [|congruence].
      apply has_duplicate_cell_NoDup.
      eapply Permutation_NoDup; [|exact E]. now apply Permutation_map. }
  rewrite <- Hd. destruct (has_duplicate_cell rows) eqn:E; [reflexivity|].
  apply has_duplicate_cell_NoDup in E.
  assert (Hds : dates_in rows = dates_in rows').
  { apply sorted_keys_perm;
      [apply Zcompare_eq|intros x y; apply Z.compare_antisym|apply Zcompare_trans|].
    now apply Permutation_map. }
  assert (Hts : tickers_of rows = tickers_of rows').
  { apply sorted_keys_perm;
      [apply String.compare_eq_iff|apply String.compare_antisym
      |apply string_compare_trans|].
    now apply Permutation_map. }
  rewrite <- Hds, <- Hts. do 2 f_equal.
  apply map_ext. intros t. f_equal. apply map_ext. intros d.
  now apply cell_perm.
Qed.

Lemma pivot_Ok_NoDup rows p :
  pivot rows = Ok p -> List.NoDup (map cell_key rows).
Proof.
  unfold pivot. destruct (has_duplicate_cell rows) eqn:E; [discriminate|].
  intros _. now apply has_duplicate_cell_NoDup.
Qed.

Lemma position_Some d idx i :
  position d idx = Some i -> (i < length idx)%nat /\ nth i idx 0%Z = d.
Proof.
  revert i. induction idx as [|h idx IH]; intros i; simpl; [discriminate|].
  destruct (Z.eqb_spec h d) as [->|_].
  - intros [= <-]. split; [lia|reflexivity].
  - destruct (position d idx) as [j|]; [|discriminate].
    intros [= <-]. destruct (IH j eq_refl). split; [lia|assumption].
Qed.

Lemma position_In d idx : In d idx -> exists i, position d idx = Some i.
Proof.
  induction idx as [|h idx IH]; simpl; [tauto|].
  intros H. destruct (Z.eqb_spec h d) as [->|Hne]; [eauto|].
  destruct H as [H|H]; [contradiction|].
  destruct (IH H) as [i ->]. simpl. eauto.
Qed.

Lemma lookup_col_map_in (g : string -> list float) ts t :
  In t ts -> lookup_col t (map (fun k => (k, g k)) ts) = Some (g t).
Proof.
  induction ts as [|k ts IH]; simpl; [tauto|].
  intros H. destruct (String.eqb_spec k t) as [->|Hne]; [reflexivity|].
  destruct H as [H|H]; [contradiction|auto].
Qed.

Lemma lookup_cell_pivot rows p d t :
  pivot rows = Ok p ->
  lookup_cell p d t = cell d t rows \/ lookup_cell p d t = NaN.
Proof.
  intros Hp. destruct (pivot_columns _ _ Hp) as [Hi Hc].
  unfold lookup_cell. rewrite Hi, Hc.
  destruct (lookup_col t _) as [c|] eqn:El; [|now right].
  destruct (position d (dates_in rows)) as [i|] eqn:Ep; [|now right].
  left. apply (lookup_col_map (fun k => map (fun d => cell d k rows) (dates_in rows))) in El.
  apply position_Some in Ep. destruct Ep as [Hlt <-]. subst c.
  now rewrite (nth_map_in _ _ _ _ 0%Z Hlt).
Qed.

(** Reading the pivot at the date and ticker of a record gives back the
    return of that record, and a cell that no record fills is NaN: the
    wide and the long form hold the same values. *)
Theorem pivot_cell_roundtrip (rows : list ReturnRecord) (df_pivot : WideFrame) :
  pivot rows = Ok df_pivot ->
  (forall r, In r rows ->
     lookup_cell df_pivot (rec_date r) (ticker r) = daily_return r) /\
  (forall d t, ~ In (d, t) (map cell_key rows) -> lookup_cell df_pivot d t = NaN).
Proof.
  intros Hp. pose proof (pivot_Ok_NoDup _ _ Hp) as Hn.
  destruct (pivot_columns _ _ Hp) as [Hi Hc]. split.
  - intros r Hin. unfold lookup_cell. rewrite Hi, Hc.
    rewrite lookup_col_map_in
      by (apply tickers_of_In; now apply in_map).
    destruct (position_In (rec_date r) (dates_in rows)) as [i Ep].
    { apply sorted_keys_In; [apply Zcompare_eq|now apply in_map]. }
    rewrite Ep. apply position_Some in Ep. destruct Ep as [Hlt Hd].
    rewrite (nth_map_in _ _ _ _ 0%Z Hlt).
    rewrite <- (cell_of_record rows r Hn Hin). f_equal. exact Hd.
  - intros d t Hout.
    destruct (lookup_cell_pivot rows df_pivot d t Hp) as [-> | ->]; [|reflexivity].
    now apply cell_absent.
Qed.

(** The axes of the pivot: the dates of the records in strictly ascending
    order, the tickers of the records in strictly ascending order, and
    every column as long as the date index. *)
Theorem pivot_axes (rows : list ReturnRecord) (df_pivot : WideFrame) :
  pivot rows = Ok df_pivot ->
  StronglySorted Z.lt (index df_pivot) /\
  (forall d, In d (index df_pivot) <-> In d (map rec_date rows)) /\
  StronglySorted string_lt (column_names df_pivot) /\
  (forall t, In t (column_names df_pivot) <-> In t (map ticker rows)) /\
  wf_frame df_pivot.
Proof.
  intros Hp. destruct (pivot_columns _ _ Hp) as [Hi Hc].
  assert (Hnames : column_names df_pivot = tickers_of rows).
  { unfold column_names. rewrite Hc, map_map. simpl. apply map_id. }
  rewrite Hi, Hnames. repeat split.
  - eapply StronglySorted_ind with (P := StronglySorted Z.lt);
      [constructor| |apply dates_in_sorted].
    intros a l _ IH Ha. constructor; [exact IH|].
    eapply List.Forall_impl; [|exact Ha]. intros x Hx. now apply Z.compare_lt_iff.
  - apply sorted_keys_In, Zcompare_eq.
  - apply sorted_keys_In, Zcompare_eq.
  - apply tickers_of_sorted.
  - apply tickers_of_In.
  - apply tickers_of_In.
  - unfold wf_frame. rewrite Hc, Hi, List.Forall_map. apply List.Forall_forall.
    intros t _. simpl. apply length_map.
Qed.

Section MainFacts.

Variable sqrtQ : Q -> Q.

Lemma main_ok (h : heap) (df : loc) (f : LongFrame) (df_pivot : WideFrame) :
  h !! df = Some f -> pivot (rows f) = Ok df_pivot ->
  main sqrtQ df h =
    Some (Ok (mkReport (statistics_of sqrtQ (rows f))
                       (annualized_volatility_of sqrtQ (rows f))
                       (sharpe_ratio_of sqrtQ (rows f) (Fin 0))
                       (calculate_correlation sqrtQ df_pivot)
                       (df_cumulative df_pivot)
                       (rolling_vol sqrtQ df_pivot)), h).
Proof.
  intros Hh Hp. run_store. rewrite Hh. cbn match. rewrite Hp.
  cbn -[statistics_of annualized_volatility_of sharpe_ratio_of
        calculate_correlation df_cumulative rolling_vol].
  rewrite Hh.
  cbn -[statistics_of annualized_volatility_of sharpe_ratio_of
        calculate_correlation df_cumulative rolling_vol].
  rewrite Hh.
  cbn -[statistics_of annualized_volatility_of sharpe_ratio_of
        calculate_correlation df_cumulative rolling_vol].
  rewrite Hh. reflexivity.
Qed.

(** [main] completes exactly when no (date, ticker) pair occurs twice in
    the frame; otherwise the ValueError of [pivot] escapes it (only
    FileNotFoundError is handled).  The frame is left as it was in both
    cases. *)
Lemma main_raises_on_duplicate_cell (h : heap) (df : loc) (f : LongFrame) :
  h !! df = Some f ->
  (List.NoDup (map cell_key (rows f)) ->
     exists report, main sqrtQ df h = Some (Ok report, h)) /\
  (~ List.NoDup (map cell_key (rows f)) ->
     main sqrtQ df h = Some (Raise ValueError, h)).
Proof.
  intros Hh. run_store. rewrite Hh. cbn match. unfold pivot. split.
  - intros Hn. apply has_duplicate_cell_NoDup in Hn. rewrite Hn.
    cbn. rewrite Hh. cbn. rewrite Hh. cbn. rewrite Hh. eauto.
  - intros Hn. destruct (has_duplicate_cell (rows f)) eqn:E; [reflexivity|].
    apply has_duplicate_cell_NoDup in E. contradiction.
Qed.

End MainFacts.

(** * Further properties of [transform_data] *)

Lemma melt_col_In idx t c r :
  In r (melt_col idx t c) ->
  ticker r = t /\ In (rec_date r) idx /\ In (daily_return r) c.
Proof.
  unfold melt_col. revert c. induction idx as [|d idx IH]; intros [|v c]; simpl;
    try tauto.
  intros [<-|H]; simpl; [auto|]. destruct (IH c H) as (H1 & H2 & H3). auto.
Qed.

Lemma melt_cols_In f vv out r :
  melt_cols f vv = Ok out -> In r out ->
  In (ticker r) vv /\ In (rec_date r) (index f) /\
  exists c, lookup_col (ticker r) (columns f) = Some c /\ In (daily_return r) c.
Proof.
  revert out. induction vv as [|v vv IH]; intros out; simpl.
  - intros [= <-] [].
  - destruct (lookup_col v (columns f)) as [c|] eqn:Hc; [|discriminate].
    destruct (melt_cols f vv) as [rest|]; simpl; [|discriminate].
    intros [= <-] Hin. apply in_app_or in Hin. destruct Hin as [Hin|Hin].
    + apply melt_col_In in Hin. destruct Hin as (-> & H2 & H3). eauto 6.
    + destruct (IH rest eq_refl Hin) as (H1 & H2 & H3). auto.
Qed.

Lemma melt_returns_defined pad adj vv out :
  melt_cols (returns_frame pad adj) vv = Ok out ->
  Forall (fun r => isnan (daily_return r) = false) out.
Proof.
  intros Hm. apply List.Forall_forall. intros r Hin.
  destruct (melt_cols_In _ _ _ _ Hm Hin) as (_ & _ & c & Hc & Hv).
  apply lookup_col_In in Hc.
  pose proof (dropna_complete (pct_change pad (frame_of adj))) as Hall.
  rewrite List.Forall_forall in Hall. specialize (Hall _ Hc). simpl in Hall.
  rewrite List.Forall_forall in Hall. now apply Hall.
Qed.

(** No missing return leaves [transform_data]: [dropna] has removed every
    row in which some column had none. *)
Theorem transform_output_defined (pad : bool) (data : CloseData)
    (tickers : list string) (out : list ReturnRecord) :
  transform_data pad data tickers = Some out ->
  Forall (fun r => isnan (daily_return r) = false) out.
Proof.
  intros Ht. destruct (transform_data_inv _ _ _ _ Ht) as (adj & _ & Hm).
  exact (melt_returns_defined _ _ _ _ Hm).
Qed.

Lemma pct_change_col_first pad c : nth 0 (pct_change_col pad c) NaN = NaN.
Proof.
  unfold pct_change_col.
  set (data := if pad then ffill c else c).
  destruct data as [|x data]; [reflexivity|]. simpl. now destruct x.
Qed.

Lemma kept_rows_not_first pad f :
  columns f <> [] -> ~ In 0%nat (kept_rows (pct_change pad f)).
Proof.
  intros Hne Hin. unfold kept_rows in Hin. apply List.filter_In in Hin.
  destruct Hin as [_ Hrc]. unfold row_complete, pct_change in Hrc. simpl in Hrc.
  destruct (columns f) as [|[n c] cols]; [contradiction|]. simpl in Hrc.
  unfold notna in Hrc. rewrite pct_change_col_first in Hrc. discriminate.
Qed.

Lemma filter_seq_without_first g n :
  ~ In 0%nat (List.filter g (seq 0 n)) ->
  (length (List.filter g (seq 0 n)) <= n - 1)%nat.
Proof.
  destruct n as [|n]; [simpl; lia|]. simpl.
  destruct (g 0%nat); [intros H; exfalso; apply H; now left|].
  intros _. pose proof (filter_length_le g (seq 1 n)) as H.
  rewrite length_seq in H. lia.
Qed.

Lemma select_close_index data tickers adj :
  select_close data tickers = Ok adj -> index (frame_of adj) = close_index data.
Proof.
  unfold select_close.
  destruct (Nat.eqb (length tickers) 1), data; try discriminate;
    intros [= <-]; reflexivity.
Qed.

(** The first date of the table never yields a record: a ticker has at
    most one record per date but the first.  In particular a table with a
    single date is transformed into no record at all, without an error. *)
Theorem transform_count_bound (pad : bool) (data : CloseData)
    (tickers : list string) (out : list ReturnRecord) (t : string) :
  List.NoDup tickers ->
  transform_data pad data tickers = Some out ->
  (length (records_of t out) <= length (close_index data) - 1)%nat.
Proof.
  intros Hnd Ht.
  destruct (transform_data_inv _ _ _ _ Ht) as (adj & Hs & Hm).
  pose proof (melt_cols_shape _ _ _ (dropna_wf _) (emitted_NoDup pad adj _ Hnd) Hm)
    as (H1 & H2 & _ & Hincl).
  destruct (in_dec String.string_dec t (emitted_tickers pad adj tickers)) as [Hin|Hout].
  - specialize (H1 t Hin). unfold dates_of in H1.
    rewrite <- (length_map rec_date), H1.
    unfold dropna. simpl. rewrite take_rows_length.
    rewrite <- (select_close_index _ _ _ Hs).
    apply filter_seq_without_first. apply kept_rows_not_first.
    specialize (Hincl t Hin). fold (returns_frame pad adj) in Hincl.
    rewrite column_names_returns_frame in Hincl. unfold column_names in Hincl.
    intros E. rewrite E in Hincl. destruct Hincl.
  - rewrite (H2 t Hout). simpl. lia.
Qed.

Lemma melt_cols_cases f vv :
  (exists out, melt_cols f vv = Ok out /\ incl vv (column_names f)) \/
  (melt_cols f vv = Raise KeyError /\ ~ incl vv (column_names f)).
Proof.
  induction vv as [|v vv IH]; simpl.
  - left. eexists. split; [reflexivity|intros ? []].
  - destruct (lookup_col v (columns f)) as [c|] eqn:Hc.
    + destruct IH as [(rest & -> & Hincl)|[-> Hn]]; simpl.
      * left. eexists. split; [reflexivity|].
        intros t [<-|Ht]; [|now apply Hincl].
        apply lookup_col_In in Hc. apply in_map_iff. exists (v, c). auto.
      * right. split; [reflexivity|]. intros H. apply Hn.
        intros t Ht. apply H. now right.
    + right. split; [reflexivity|]. intros H.
      apply lookup_col_None in Hc. apply Hc. apply H. now left.
Qed.

(** [transform_data] returns [None] on exactly the inputs that are not
    [transform_ok]: one ticker with a ticker-keyed table, a bare series with
    several tickers, or a requested ticker without a column in a table of
    several columns.  A table without rows or with missing prices is never a
    reason for [None].  (No ticker is called 'Date', the name of the id
    column of [melt].) *)
Theorem transform_data_none_iff (pad : bool) (data : CloseData) (tickers : list string) :
  ~ In "Date"%string tickers ->
  (transform_ok data tickers -> exists out, transform_data pad data tickers = Some out) /\
  (~ transform_ok data tickers -> transform_data pad data tickers = None).
Proof.
  intros _. unfold transform_data, transform_body, melt, select_close, transform_ok.
  destruct data as [idx v|f].
  - destruct (Nat.eqb_spec (length tickers) 1) as [E|NE].
    + split; [|intros H; exfalso; apply H; now left].
      intros _. destruct tickers as [|t [|t' l]]; try discriminate. simpl.
      rewrite String.eqb_refl. simpl. eauto.
    + simpl.
      destruct (melt_cols_cases (dropna (pct_change pad (mkWide idx [("Close"%string, v)])))
                  tickers) as [(out & -> & Hincl)|[-> Hn]]; simpl.
      * split; [eauto|]. intros H. exfalso. apply H. right. exact Hincl.
      * split; [|reflexivity]. intros [E|Hincl]; [contradiction|].
        exfalso. apply Hn. exact Hincl.
  - destruct (Nat.eqb_spec (length tickers) 1) as [E|NE].
    + split; [intros [H _]; contradiction|reflexivity].
    + simpl. rewrite !length_map.
      destruct (Nat.eqb_spec (length (columns f)) 1) as [E1|NE1].
      * split; [|intros H; exfalso; apply H; auto].
        intros _.
        destruct (melt_cols_covered _ _ (emitted_covered pad f tickers (or_introl E1)))
          as [out Hout].
        unfold emitted_tickers, returns_frame in Hout. simpl in Hout.
        rewrite !length_map in Hout.
        apply Nat.eqb_eq in E1. rewrite E1 in Hout. rewrite Hout. simpl. eauto.
      * destruct (melt_cols_cases (returns_frame pad (DataFrame f)) tickers)
          as [(out & Hm & Hincl)|[Hm Hn]];
          rewrite column_names_returns_frame in *; simpl in *;
          unfold returns_frame in Hm; simpl in Hm; rewrite Hm; simpl.
        -- split; [eauto|]. intros H. exfalso. apply H. auto.
        -- split; [|reflexivity]. intros [_ [E|Hincl]]; contradiction.
Qed.

Lemma melt_cols_records f vv out t c :
  List.NoDup vv -> melt_cols f vv = Ok out -> In t vv ->
  lookup_col t (columns f) = Some c ->
  records_of t out = melt_col (index f) t c.
Proof.
  revert out. induction vv as [|v vv IH]; intros out Hnd Hm Hin Hc; [destruct Hin|].
  simpl in Hm. inversion Hnd as [|? ? Hnotin Hnd']; subst.
  destruct (lookup_col v (columns f)) as [c'|] eqn:Hv; [|discriminate].
  destruct (melt_cols f vv) as [rest|] eqn:Hr; simpl in Hm; [|discriminate].
  injection Hm as <-. rewrite records_of_app.
  destruct (String.eqb_spec v t) as [->|Hne].
  - rewrite Hv in Hc. injection Hc as ->.
    rewrite records_of_melt_col_same.
    assert (Hrest : records_of t rest = []).
    { unfold records_of.
      assert (Hall : forall r, In r rest -> String.eqb (ticker r) t = false).
      { intros r Hr'. destruct (melt_cols_In _ _ _ _ Hr Hr') as (Hi & _).
        apply String.eqb_neq. intros E. rewrite E in Hi. contradiction. }
      clear -Hall. induction rest as [|r rest IH]; simpl; [reflexivity|].
      rewrite (Hall r) by (now left). apply IH. intros; apply Hall; now right. }
    now rewrite Hrest, app_nil_r.
  - rewrite records_of_melt_col_other by exact Hne. simpl.
    destruct Hin as [E|Hin]; [contradiction|]. now apply IH.
Qed.

Lemma take_tail {A} (d : A) (l : list A) :
  take_rows d (seq 1 (length l - 1)) l = tl l.
Proof.
  unfold take_rows. destruct l as [|a l]; [reflexivity|].
  simpl. rewrite Nat.sub_0_r. rewrite <- seq_shift, map_map. simpl.
  induction l as [|b l IH] using rev_ind; [reflexivity|].
  rewrite length_app. simpl. rewrite Nat.add_1_r, seq_S, map_app. simpl.
  rewrite app_nth2, Nat.sub_diag by lia. simpl. f_equal.
  rewrite <- IH at 2. apply map_ext_in. intros i Hi. apply in_seq in Hi.
  now rewrite app_nth1 by lia.
Qed.

Lemma lookup_col_map_snd (g : list float -> list float) cols t :
  lookup_col t (map (fun nc => (fst nc, g (snd nc))) cols) =
  option_map g (lookup_col t cols).
Proof.
  induction cols as [|[n c] cols IH]; simpl; [reflexivity|].
  destruct (String.eqb n t); [reflexivity|exact IH].
Qed.

Lemma pct_from_Fin p ps :
  is_price (Fin p) = true -> forallb is_price (map Fin ps) = true ->
  pct_from (Fin p) (map Fin ps) = map fq (Qreturns p ps).
Proof.
  revert p. induction ps as [|x ps IH]; intros p Hp Hps; [reflexivity|].
  simpl in Hps. apply andb_true_iff in Hps. destruct Hps as [Hx Hps].
  cbn [map pct_from Qreturns]. f_equal; [|now apply IH].
  simpl in Hp. apply negb_true_iff in Hp. simpl. rewrite Hp. simpl.
  apply fq_eq. now rewrite Qred_correct.
Qed.

Lemma melt_returns_frame_full pad adj vv out t p0 ps :
  full_prices (frame_of adj) -> List.NoDup vv ->
  melt_cols (returns_frame pad adj) vv = Ok out -> In t vv ->
  lookup_col t (columns (frame_of adj)) = Some (map Fin (p0 :: ps)) ->
  records_of t out = melt_col (tl (index (frame_of adj))) t (map fq (Qreturns p0 ps)).
Proof.
  intros Hfull Hnd Hm Hin Hc.
  assert (Hne : columns (frame_of adj) <> []).
  { intros E. rewrite E in Hc. discriminate. }
  pose proof (lookup_col_In _ _ _ Hc) as Hcin.
  unfold full_prices in Hfull. pose proof Hfull as Hfull'.
  rewrite List.Forall_forall in Hfull'. destruct (Hfull' _ Hcin) as [Hp Hl].
  cbn [snd] in Hp, Hl.
  rewrite (melt_cols_records _ _ _ t
             (take_rows NaN (kept_rows (pct_change pad (frame_of adj)))
                (pct_change_col pad (map Fin (p0 :: ps))))
             Hnd Hm Hin).
  - unfold returns_frame, dropna. cbn [index].
    rewrite (kept_rows_full pad _ Hfull Hne).
    change (index (pct_change pad (frame_of adj))) with (index (frame_of adj)).
    rewrite take_tail. f_equal.
    rewrite <- Hl, <- (pct_from_length NaN (map Fin (p0 :: ps))).
    rewrite pct_change_col_prices by exact Hp. rewrite take_tail.
    cbn [map pct_from tl]. cbn [map forallb] in Hp.
    apply andb_true_iff in Hp. destruct Hp as [H0 Hps].
    now apply pct_from_Fin.
  - unfold returns_frame, dropna, pct_change. cbn [columns].
    rewrite !lookup_col_map_snd, Hc. reflexivity.
Qed.

(** On a fully priced table the records of a ticker are, date by date
    from the second date on, price / previous price - 1. *)
Theorem transform_returns_are_price_ratios (pad : bool) (data : CloseData)
    (tickers : list string) (adj_close : PandasObj) (out : list ReturnRecord)
    (t : string) (p0 : Q) (ps : list Q) :
  List.NoDup tickers ->
  select_close data tickers = Ok adj_close ->
  full_prices (frame_of adj_close) ->
  transform_data pad data tickers = Some out ->
  In t (emitted_tickers pad adj_close tickers) ->
  lookup_col t (columns (frame_of adj_close)) = Some (map Fin (p0 :: ps)) ->
  records_of t out =
    melt_col (tl (index (frame_of adj_close))) t (map fq (Qreturns p0 ps)).
Proof.
  intros Hnd Hs Hfull Ht Hin Hc.
  destruct (transform_data_inv _ _ _ _ Ht) as (adj & Hs' & Hm).
  rewrite Hs in Hs'. injection Hs' as <-.
  apply (melt_returns_frame_full pad adj_close
           (emitted_tickers pad adj_close tickers)); auto.
  now apply emitted_NoDup.
Qed.

Lemma NoDup_take_rows {A} (d : A) pos l :
  List.NoDup l -> List.NoDup pos -> (forall i, In i pos -> (i < length l)%nat) ->
  List.NoDup (take_rows d pos l).
Proof.
  intros Hl Hpos Hlt. unfold take_rows.
  apply List.NoDup_map_NoDup_ForallPairs; [|exact Hpos].
  intros i j Hi Hj E. apply (proj1 (List.NoDup_nth l d) Hl); auto.
Qed.

Lemma dropna_index_NoDup f : List.NoDup (index f) -> List.NoDup (index (dropna f)).
Proof.
  intros H. unfold dropna. simpl. apply NoDup_take_rows; [exact H| |].
  - unfold kept_rows. apply List.NoDup_filter, List.seq_NoDup.
  - intros i Hi. unfold kept_rows in Hi. apply List.filter_In in Hi.
    destruct Hi as [Hi _]. apply in_seq in Hi. lia.
Qed.

Lemma melt_col_keys idx t c :
  length idx = length c -> map cell_key (melt_col idx t c) = map (fun d => (d, t)) idx.
Proof.
  unfold melt_col. revert c. induction idx as [|d idx IH]; intros [|v c] H;
    simpl in *; try congruence.
  f_equal. apply IH. congruence.
Qed.

Lemma melt_cols_keys_NoDup f vv out :
  wf_frame f -> List.NoDup (index f) -> List.NoDup vv ->
  melt_cols f vv = Ok out -> List.NoDup (map cell_key out).
Proof.
  intros Hwf Hidx. revert out. induction vv as [|v vv IH]; intros out Hnd Hm;
    simpl in Hm.
  - injection Hm as <-. constructor.
  - destruct (lookup_col v (columns f)) as [c|] eqn:Hc; [|discriminate].
    destruct (melt_cols f vv) as [rest|] eqn:Hr; simpl in Hm; [|discriminate].
    injection Hm as <-. inversion Hnd as [|? ? Hnotin Hnd']; subst.
    assert (Hlc : length (index f) = length c).
    { apply lookup_col_In in Hc. unfold wf_frame in Hwf.
      rewrite List.Forall_forall in Hwf. symmetry. exact (Hwf _ Hc). }
    rewrite map_app, melt_col_keys by exact Hlc.
    apply List.NoDup_app.
    + apply List.NoDup_map_NoDup_ForallPairs; [|exact Hidx].
      intros a b _ _ [= E]. exact E.
    + now apply IH.
    + intros k Hk Hk'. apply in_map_iff in Hk. destruct Hk as (d & <- & _).
      apply in_map_iff in Hk'. destruct Hk' as (r & Hkey & Hin).
      destruct (melt_cols_In _ _ _ _ Hr Hin) as (Hv & _).
      injection Hkey as _ E. rewrite E in Hv. contradiction.
Qed.

Lemma transform_keys_NoDup pad data tickers out :
  List.NoDup tickers -> List.NoDup (close_index data) ->
  transform_data pad data tickers = Some out -> List.NoDup (map cell_key out).
Proof.
  intros Hnd Hidx Ht.
  destruct (transform_data_inv _ _ _ _ Ht) as (adj & Hs & Hm).
  apply (melt_cols_keys_NoDup _ _ _ (dropna_wf _)) in Hm; auto.
  - unfold returns_frame. apply dropna_index_NoDup.
    change (index (pct_change pad (frame_of adj))) with (index (frame_of adj)).
    now rewrite (select_close_index _ _ _ Hs).
  - now apply emitted_NoDup.
Qed.

(** What [transform_data] returns can always be pivoted: with distinct
    tickers and distinct dates in the price table, no (date, ticker) pair
    occurs twice in the output, so [df.pivot] in the report raises nothing. *)
Theorem transform_output_pivots (pad : bool) (data : CloseData)
    (tickers : list string) (out : list ReturnRecord) :
  List.NoDup tickers ->
  List.NoDup (close_index data) ->
  transform_data pad data tickers = Some out ->
  List.NoDup (map cell_key out) /\ exists df_pivot, pivot out = Ok df_pivot.
Proof.
  intros Hnd Hidx Ht.
  pose proof (transform_keys_NoDup _ _ _ _ Hnd Hidx Ht) as Hk.
  split; [exact Hk|]. unfold pivot.
  apply has_duplicate_cell_NoDup in Hk. rewrite Hk. eauto.
Qed.

(** * Further properties: cumulative returns of price-derived returns *)

Lemma fadd_one_fq a : fadd f1 (fq a) = fq (1 + a).
Proof. unfold f1. simpl. apply fq_eq. now rewrite Qred_correct. Qed.

Lemma fmul_fq a b : fmul (fq a) (fq b) = fq (a * b).
Proof. simpl. apply fq_eq. now rewrite !Qred_correct. Qed.

Lemma fsub_fq_one a : fsub (fq a) f1 = fq (a - 1).
Proof. unfold f1. simpl. apply fq_eq. now rewrite Qred_correct. Qed.

Lemma cumprod_from_price_ratios p0 a p ps :
  ~ p0 == 0 -> ~ p == 0 -> Forall (fun x => ~ x == 0) ps -> a == p / p0 ->
  cumprod_from (Some (fq a)) (map (fadd f1) (map fq (Qreturns p ps))) =
  map (fun x => fq (x / p0)) ps.
Proof.
  intros H0. revert a p. induction ps as [|x ps IH]; intros a p Hp Hall Ha;
    [reflexivity|].
  inversion Hall as [|? ? Hx Hps]; subst.
  cbn [Qreturns map cumprod_from]. rewrite fadd_one_fq. cbn [isnan fq].
  change (Fin (Qred ?q)) with (fq q). rewrite fmul_fq.
  assert (E : a * (1 + (x / p - 1)) == x / p0) by (rewrite Ha; field; auto).
  rewrite (fq_eq _ _ E). f_equal.
  rewrite <- (fq_eq _ _ E). apply IH; auto.
Qed.

(** The running product of price-derived returns telescopes. *)
Lemma cumulative_telescopes (p0 : Q) (ps : list Q) :
  ~ p0 == 0 -> Forall (fun x => ~ x == 0) ps ->
  cumulative (map fq (Qreturns p0 ps)) = map (fun x => fq (x / p0 - 1)) ps.
Proof.
  intros H0 Hall. unfold cumulative, cumprod.
  destruct ps as [|x ps]; [reflexivity|].
  inversion Hall as [|? ? Hx Hps]; subst.
  cbn [Qreturns map cumprod_from]. rewrite fadd_one_fq. cbn [isnan fq].
  change (Fin (Qred ?q)) with (fq q).
  assert (E : 1 + (x / p0 - 1) == x / p0) by (field; auto).
  rewrite (fq_eq _ _ E).
  rewrite (cumprod_from_price_ratios p0 (x / p0) x ps) by (auto; reflexivity).
  cbn [map]. rewrite fsub_fq_one. f_equal.
  rewrite map_map. apply map_ext. intros y. apply fsub_fq_one.
Qed.

(** Line 116 on a pivot column that holds the returns of a price series:
    the running product telescopes, and the cumulative return at each date
    is price / first price - 1 (in the exact arithmetic of the float
    model). *)
Theorem df_cumulative_of_price_returns (df_pivot : WideFrame) (t : string)
    (p0 : Q) (ps : list Q) :
  ~ p0 == 0 -> Forall (fun x => ~ x == 0) ps ->
  lookup_col t (columns df_pivot) = Some (map fq (Qreturns p0 ps)) ->
  lookup_col t (columns (df_cumulative df_pivot)) =
    Some (map (fun x => fq (x / p0 - 1)) ps).
Proof.
  intros H0 Hall Hc. rewrite df_cumulative_column, Hc. simpl. f_equal.
  now apply cumulative_telescopes.
Qed.

(** * Further properties: from the price table to the cumulative chart *)

Lemma prices_nonzero p0 ps :
  forallb is_price (map Fin (p0 :: ps)) = true ->
  ~ p0 == 0 /\ Forall (fun x => ~ x == 0) ps.
Proof.
  assert (H : forall qs, forallb is_price (map Fin qs) = true ->
                         Forall (fun x => ~ x == 0) qs).
  { induction qs as [|x qs IH]; simpl; [constructor|].
    intros Hx. apply andb_true_iff in Hx. destruct Hx as [Hx Hqs].
    constructor; [|now apply IH].
    apply negb_true_iff in Hx. now apply Qeq_bool_neq. }
  intros Hp. apply H in Hp. inversion Hp; auto.
Qed.

Lemma Qreturns_length p ps : length (Qreturns p ps) = length ps.
Proof. revert p. induction ps; intros; simpl; auto. Qed.

Lemma returns_frame_index_full pad adj :
  full_prices (frame_of adj) -> columns (frame_of adj) <> [] ->
  index (returns_frame pad adj) = tl (index (frame_of adj)).
Proof.
  intros Hfull Hne. unfold returns_frame, dropna. cbn [index].
  rewrite (kept_rows_full pad _ Hfull Hne).
  change (index (pct_change pad (frame_of adj))) with (index (frame_of adj)).
  apply take_tail.
Qed.

Lemma StronglySorted_tl {A} (R : A -> A -> Prop) l :
  StronglySorted R l -> StronglySorted R (tl l).
Proof. destruct 1; simpl; [constructor|assumption]. Qed.

Lemma cells_of_melt_col out t l1 l2 :
  List.NoDup (map cell_key out) -> length l1 = length l2 ->
  (forall r, In r (melt_col l1 t l2) -> In r out) ->
  map (fun d => cell d t out) l1 = l2.
Proof.
  intros Hk. unfold melt_col. revert l2.
  induction l1 as [|d l1 IH]; intros [|v l2] Hl Hin; simpl in *; try congruence.
  f_equal.
  - apply (cell_of_record out (mkRecord d t v) Hk). apply Hin. now left.
  - apply IH; [congruence|]. intros r Hr. apply Hin. now right.
Qed.

(** End to end, from prices to the cumulative chart: for a price table
    with strictly ascending dates and a price in every cell, the series
    that [main] charts for a ticker starts on the second date and its
    value on each date is price on that date / first price - 1 (in the
    exact arithmetic of the float model). *)
Theorem pipeline_cumulative_return (pad : bool) (data : CloseData)
    (tickers : list string) (adj_close : PandasObj) (out : list ReturnRecord)
    (t : string) (p0 : Q) (ps : list Q) :
  List.NoDup tickers ->
  select_close data tickers = Ok adj_close ->
  full_prices (frame_of adj_close) ->
  StronglySorted Z.lt (index (frame_of adj_close)) ->
  transform_data pad data tickers = Some out ->
  In t (emitted_tickers pad adj_close tickers) ->
  lookup_col t (columns (frame_of adj_close)) = Some (map Fin (p0 :: ps)) ->
  ps <> [] ->
  exists df_pivot,
    pivot out = Ok df_pivot /\
    index df_pivot = tl (index (frame_of adj_close)) /\
    lookup_col t (columns (df_cumulative df_pivot)) =
      Some (map (fun x => fq (x / p0 - 1)) ps).
Proof.
  intros Hnd Hs Hfull Hsorted Ht Hin Hc Hps.
  destruct (transform_data_inv _ _ _ _ Ht) as (adj & Hs' & Hm).
  rewrite Hs in Hs'. injection Hs' as <-.
  set (idx := index (frame_of adj_close)) in *.
  assert (Hne : columns (frame_of adj_close) <> []).
  { intros E. rewrite E in Hc. discriminate. }
  pose proof (lookup_col_In _ _ _ Hc) as Hcin.
  pose proof Hfull as Hfull'. unfold full_prices in Hfull'.
  rewrite List.Forall_forall in Hfull'. destruct (Hfull' _ Hcin) as [Hp Hl].
  cbn [snd] in Hp, Hl. fold idx in Hl.
  destruct (prices_nonzero _ _ Hp) as [H0 Hnz].
  pose proof (emitted_NoDup pad adj_close _ Hnd) as Hvv.
  pose proof (melt_returns_frame_full _ _ _ _ _ _ _ Hfull Hvv Hm Hin Hc) as Hrec.
  fold idx in Hrec.
  pose proof (returns_frame_index_full pad adj_close Hfull Hne) as Hidx.
  fold idx in Hidx.
  assert (Hlen : length (tl idx) = length (map fq (Qreturns p0 ps))).
  { rewrite length_map, Qreturns_length. rewrite length_map in Hl.
    destruct idx; simpl in *; lia. }
  assert (Hst : StronglySorted (fun a b => Z.compare a b = Lt) (tl idx))
    by (apply StronglySorted_tl; exact Hsorted).
  assert (Hk : List.NoDup (map cell_key out)).
  { apply (melt_cols_keys_NoDup _ _ _ (dropna_wf _)) in Hm; auto.
    fold (returns_frame pad adj_close). rewrite Hidx.
    apply (sorted_NoDup Z.compare); [intros x y; apply Z.compare_antisym|exact Hst]. }
  assert (Hsub : forall r, In r (melt_col (tl idx) t (map fq (Qreturns p0 ps))) -> In r out).
  { intros r Hr. rewrite <- Hrec in Hr. unfold records_of in Hr.
    now apply List.filter_In in Hr. }
  assert (Hdates : dates_in out = tl idx).
  { apply (sorted_unique Z.compare);
      [apply Zcompare_eq|intros x y; apply Z.compare_antisym|apply Zcompare_trans
      |apply dates_in_sorted|exact Hst|].
    intros d. unfold dates_in. rewrite sorted_keys_In by apply Zcompare_eq. split.
    - intros Hd. apply in_map_iff in Hd. destruct Hd as (r & <- & Hr).
      destruct (melt_cols_In _ _ _ _ Hm Hr) as (_ & Hi & _).
      now rewrite Hidx in Hi.
    - intros Hd. rewrite <- (melt_col_dates (tl idx) t _ Hlen) in Hd.
      apply in_map_iff in Hd. destruct Hd as (r & <- & Hr).
      apply in_map. now apply Hsub. }
  assert (Htick : In t (tickers_of out)).
  { apply tickers_of_In.
    destruct ps as [|x ps']; [contradiction|].
    destruct (tl idx) as [|d rest] eqn:E; [simpl in Hlen; discriminate|].
    apply in_map_iff. exists (mkRecord d t (fq (x / p0 - 1))). split; [reflexivity|].
    apply Hsub. simpl. now left. }
  eexists. split.
  { unfold pivot. apply has_duplicate_cell_NoDup in Hk. rewrite Hk. reflexivity. }
  cbn [index]. split; [exact Hdates|].
  rewrite df_cumulative_column. cbn [columns].
  rewrite (lookup_col_map_in (fun k => map (fun d => cell d k out) (dates_in out)))
    by exact Htick.
  simpl. f_equal. rewrite Hdates.
  rewrite (cells_of_melt_col out t (tl idx) (map fq (Qreturns p0 ps)) Hk Hlen Hsub).
  now apply cumulative_telescopes.
Qed.

(** * Further properties: [calculate_cumulative_returns] on one ticker *)

Lemma single_ticker_keys (rows : list ReturnRecord) (t : string) :
  Forall (fun r => ticker r = t) rows ->
  StronglySorted Z.lt (map rec_date rows) ->
  List.NoDup (map cell_key rows) /\ dates_in rows = map rec_date rows.
Proof.
  intros Ht Hs.
  assert (Hs' : StronglySorted (fun a b => Z.compare a b = Lt) (map rec_date rows)).
  { eapply StronglySorted_ind with (P := StronglySorted (fun a b => Z.compare a b = Lt));
      [constructor| |exact Hs].
    intros a l _ IH Ha. constructor; [exact IH|].
    eapply List.Forall_impl; [|exact Ha]. intros x Hx. now apply Z.compare_lt_iff. }
  split.
  - apply (sorted_NoDup Z.compare) in Hs'; [|intros x y; apply Z.compare_antisym].
    apply (NoDup_map_inv fst). rewrite map_map. exact Hs'.
  - apply (sorted_unique Z.compare);
      [apply Zcompare_eq|intros x y; apply Z.compare_antisym|apply Zcompare_trans
      |apply dates_in_sorted|exact Hs'|].
    intros d. apply sorted_keys_In, Zcompare_eq.
Qed.

Lemma single_ticker_tickers (rows : list ReturnRecord) (t : string) :
  rows <> [] -> Forall (fun r => ticker r = t) rows -> tickers_of rows = [t].
Proof.
  intros Hne Ht.
  apply (sorted_unique String.compare);
    [apply String.compare_eq_iff|apply String.compare_antisym
    |apply string_compare_trans|apply tickers_of_sorted|repeat constructor|].
  intros x. rewrite tickers_of_In, in_map_iff. rewrite List.Forall_forall in Ht.
  split.
  - intros (r & <- & Hr). left. symmetry. now apply Ht.
  - intros [<-|[]]. destruct rows as [|r rows]; [contradiction|].
    exists r. split; [apply Ht|]; now left.
Qed.

(** On a frame with a single ticker whose rows are in date order,
    [calculate_cumulative_returns] writes the series that [main] charts for
    that ticker: the running product down the column is then the running
    product of one ticker. *)
Theorem cumulative_returns_single_ticker (h : heap) (df : loc) (f : LongFrame)
    (t : string) :
  h !! df = Some f ->
  rows f <> [] ->
  Forall (fun r => ticker r = t) (rows f) ->
  StronglySorted Z.lt (map rec_date (rows f)) ->
  exists h' f' df_pivot c,
    calculate_cumulative_returns df h = Some (df, h') /\
    h' !! df = Some f' /\
    rows f' = rows f /\
    extra f' !! "cumulative_return"%string = Some c /\
    pivot (rows f) = Ok df_pivot /\
    index df_pivot = map rec_date (rows f) /\
    lookup_col t (columns (df_cumulative df_pivot)) = Some c.
Proof.
  intros Hh Hne Ht Hs.
  destruct (single_ticker_keys _ _ Ht Hs) as [Hk Hd].
  pose proof (single_ticker_tickers _ _ Hne Ht) as Htk.
  run_store. rewrite Hh. cbn match. rewrite Hh. cbn match.
  do 4 eexists. split; [reflexivity|]. rewrite lookup_insert_eq.
  split; [reflexivity|]. cbn [rows extra]. split; [reflexivity|].
  rewrite lookup_insert_eq. split; [reflexivity|].
  unfold pivot. pose proof Hk as Hk'. apply has_duplicate_cell_NoDup in Hk'.
  rewrite Hk'. split; [reflexivity|]. cbn [index]. split; [exact Hd|].
  rewrite df_cumulative_column. cbn [columns]. rewrite Htk. cbn [map lookup_col].
  rewrite String.eqb_refl. cbn [option_map]. do 2 f_equal.
  rewrite Hd, map_map. apply map_ext_in. intros r Hr.
  rewrite List.Forall_forall in Ht. rewrite <- (Ht r Hr).
  now apply cell_of_record.
Qed.

(** * Further properties: the scripts *)

Lemma transform_single_date pad data tickers out :
  (length (close_index data) <= 1)%nat ->
  transform_data pad data tickers = Some out -> out = [].
Proof.
  intros Hn Ht. destruct (transform_data_inv _ _ _ _ Ht) as (adj & Hs & Hm).
  destruct (emitted_tickers pad adj tickers) as [|v vv] eqn:Hv.
  - simpl in Hm. now injection Hm as <-.
  - apply (melt_cols_empty_index (returns_frame pad adj) (v :: vv)); [|exact Hm].
    assert (Hne : columns (frame_of adj) <> []).
    { destruct (melt_cols_cases (returns_frame pad adj) (v :: vv))
        as [(o & _ & Hincl)|[Hr _]]; [|congruence].
      specialize (Hincl v (or_introl eq_refl)).
      rewrite column_names_returns_frame in Hincl. unfold column_names in Hincl.
      intros E. rewrite E in Hincl. destruct Hincl. }
    assert (Hle : (length (kept_rows (pct_change pad (frame_of adj)))
                   <= length (close_index data) - 1)%nat).
    { rewrite <- (select_close_index _ _ _ Hs).
      apply (filter_seq_without_first
               (row_complete (columns (pct_change pad (frame_of adj))))
               (length (index (frame_of adj)))).
      exact (kept_rows_not_first pad _ Hne). }
    unfold returns_frame, dropna. cbn [index].
    destruct (kept_rows (pct_change pad (frame_of adj))); [reflexivity|].
    simpl in Hle. lia.
Qed.

Section EtlCsvFacts.

Variable pad : bool.
Variable yf_download : list string -> string -> string -> result CloseData.
Variable can_write : string -> bool.

(** A run of the CSV script for distinct tickers touches nothing but the
    file 'rendimientos_diarios.csv', and touches that only after a download
    that is not empty and a transformation that did not fail; the file then
    holds the transformed table, in which no return is missing.  A download
    with a single date still writes the file, with no row in it. *)
Theorem etl_csv_main_effect (cl : CommandLine) (w : World) :
  let w' := etl_to_csv.main pad yf_download can_write cl w in
  let tickers := default config.TICKERS (cl_tickers cl) in
  List.NoDup tickers ->
  database w' = database w /\
  (forall name, name <> "rendimientos_diarios.csv"%string ->
     files w' !! name = files w !! name) /\
  (w' = w \/
   exists data out,
     yf_download tickers (default config.START_DATE (cl_start_date cl))
                 (default config.END_DATE (cl_end_date cl)) = Ok data /\
     data_empty data = false /\
     transform_data pad data tickers = Some out /\
     files w' !! "rendimientos_diarios.csv"%string = Some (CsvFile out) /\
     Forall (fun r => isnan (daily_return r) = false) out /\
     ((length (close_index data) <= 1)%nat -> out = [])).
Proof.
  cbv zeta. intros _.
  unfold etl_to_csv.main, etl_to_csv.get_args, extract_data,
    etl_to_csv.save_to_csv. simpl.
  destruct (yf_download _ _ _) as [data|e] eqn:Hd; [|auto].
  destruct (data_empty data) eqn:He; [auto|].
  destruct (transform_data pad data _) as [out|] eqn:Ht; [|auto].
  destruct (can_write _); [|auto]. simpl.
  split; [reflexivity|]. split.
  - intros name Hne. now rewrite lookup_insert_ne.
  - right. exists data, out. repeat split; auto.
    + apply lookup_insert_eq.
    + destruct (transform_data_inv _ _ _ _ Ht) as (adj & _ & Hm).
      exact (melt_returns_defined _ _ _ _ Hm).
    + intros Hn. exact (transform_single_date _ _ _ _ Hn Ht).
Qed.

End EtlCsvFacts.

Section PostgresFacts.

Variable pad : bool.
Variable yf_download : list string -> string -> string -> result CloseData.
Variable accepts : string -> bool.

Lemma number_rows_records first df :
  map row_record (etl_yfinance_postgres.number_rows first df) = df /\
  map row_id (etl_yfinance_postgres.number_rows first df) = seq first (length df).
Proof.
  revert first. induction df as [|r df IH]; intros first; simpl; [auto|].
  destruct (IH (S first)) as [-> ->]. auto.
Qed.

Lemma load_data_loaded (df : list ReturnRecord)
    (host name user password table mode : string) (w : World) :
  password <> ""%string ->
  accepts (etl_yfinance_postgres.db_uri user password host name mode) = true ->
  forallb etl_yfinance_postgres.fits_varchar10 df = true ->
  etl_yfinance_postgres.load_data accepts df host name user password table mode w =
    mkWorld (files w)
      (<[table := mkTable (etl_yfinance_postgres.number_rows 1 df) (1 + length df)]>
         (<[table := mkTable [] 1]>
            (etl_yfinance_postgres.create_table table (database w)))).
Proof.
  intros Hpw Hacc Hfit.
  unfold etl_yfinance_postgres.load_data,
    etl_yfinance_postgres.create_table_if_not_exists,
    etl_yfinance_postgres.to_sql_append, etl_yfinance_postgres.truncate_restart.
  apply String.eqb_neq in Hpw. now rewrite Hpw, Hacc, lookup_insert_eq, Hfit.
Qed.

Lemma create_table_other (table other : string) (db : gmap string Table) :
  other <> table ->
  etl_yfinance_postgres.create_table table db !! other = db !! other.
Proof.
  intros Hne. unfold etl_yfinance_postgres.create_table.
  destruct (db !! table); [reflexivity|]. now rewrite lookup_insert_ne.
Qed.

(** A successful load is a full refresh: whatever the table held, it then
    holds exactly the rows of the frame, in order, with ids 1, 2, ...;
    no other table and no file is touched. *)
Theorem load_data_full_refresh (df : list ReturnRecord)
    (host name user password table mode : string) (w : World) :
  password <> ""%string ->
  etl_yfinance_postgres.plain_identifier table = true ->
  accepts (etl_yfinance_postgres.db_uri user password host name mode) = true ->
  forallb etl_yfinance_postgres.fits_varchar10 df = true ->
  let w' := etl_yfinance_postgres.load_data accepts df host name user password
              table mode w in
  files w' = files w /\
  (exists rows, database w' !! table = Some (mkTable rows (1 + length df)) /\
                map row_record rows = df /\
                map row_id rows = seq 1 (length df)) /\
  (forall other, other <> table -> database w' !! other = database w !! other).
Proof.
  intros Hpw _ Hacc Hfit. cbv zeta.
  rewrite (load_data_loaded df host name user password table mode w Hpw Hacc Hfit).
  cbn [files database]. split; [reflexivity|]. split.
  - eexists. rewrite lookup_insert_eq. split; [reflexivity|].
    apply number_rows_records.
  - intros other Hne. rewrite !lookup_insert_ne by auto.
    now apply create_table_other.
Qed.

(** When a load cannot be done the rows of the table stay as they were:
    with an empty password or a refused connection nothing at all
    changes; with a ticker longer than ten characters the insertion fails
    and the truncation is rolled back with it, the only trace being the
    empty table created if there was none. *)
Theorem load_data_failure_keeps_rows (df : list ReturnRecord)
    (host name user password table mode : string) (w : World) :
  etl_yfinance_postgres.plain_identifier table = true ->
  let w' := etl_yfinance_postgres.load_data accepts df host name user password
              table mode w in
  (password = ""%string -> w' = w) /\
  (accepts (etl_yfinance_postgres.db_uri user password host name mode) = false ->
     w' = w) /\
  (forallb etl_yfinance_postgres.fits_varchar10 df = false ->
     files w' = files w /\
     (forall t, database w !! table = Some t -> database w' !! table = Some t) /\
     (database w !! table = None ->
        database w' !! table = None \/ database w' !! table = Some (mkTable [] 1)) /\
     (forall other, other <> table -> database w' !! other = database w !! other)).
Proof.
  intros _. cbv zeta.
  unfold etl_yfinance_postgres.load_data,
    etl_yfinance_postgres.create_table_if_not_exists,
    etl_yfinance_postgres.to_sql_append, etl_yfinance_postgres.truncate_restart,
    etl_yfinance_postgres.create_table.
  split; [|split].
  - intros ->. reflexivity.
  - intros Hacc. rewrite Hacc. now destruct (String.eqb password "").
  - intros Hfit.
    assert (Hsame : files w = files w /\
              (forall t, database w !! table = Some t -> database w !! table = Some t) /\
              (database w !! table = None ->
                 database w !! table = None \/
                 database w !! table = Some (mkTable [] 1)) /\
              (forall other, other <> table ->
                 database w !! other = database w !! other))
      by (repeat split; auto).
    destruct (String.eqb password ""); [exact Hsame|].
    destruct (accepts _); [|exact Hsame].
    rewrite lookup_insert_eq, Hfit. cbn [files database].
    destruct (database w !! table) as [t|] eqn:Ht.
    + rewrite Ht. repeat split; auto; discriminate.
    + rewrite lookup_insert_eq.
      split; [reflexivity|]. split; [discriminate|]. split; [auto|].
      intros other Hne. now rewrite lookup_insert_ne.
Qed.

(** An empty password, given on the command line or, without one there, in
    POSTGRES_PASSWORD, makes the PostgreSQL script load nothing, whatever
    [config] says and whatever was downloaded. *)
Theorem postgres_main_empty_password (cl : CommandLine) (env : gmap string string)
    (w : World) :
  cl_db_password cl = Some ""%string \/
  (cl_db_password cl = None /\ env !! "POSTGRES_PASSWORD"%string = Some ""%string) ->
  etl_yfinance_postgres.db_password (etl_yfinance_postgres.get_args cl env) = ""%string /\
  etl_yfinance_postgres.main pad yf_download accepts cl env w = w.
Proof.
  intros H.
  assert (Hpw : etl_yfinance_postgres.db_password
                  (etl_yfinance_postgres.get_args cl env) = ""%string).
  { unfold etl_yfinance_postgres.get_args, etl_yfinance_postgres.getenv. simpl.
    destruct H as [-> | [-> ->]]; reflexivity. }
  split; [exact Hpw|].
  unfold etl_yfinance_postgres.main.
  destruct (extract_data _ _ _ _) as [data|]; [|reflexivity].
  destruct (transform_data _ _ _) as [out|]; [|reflexivity].
  unfold etl_yfinance_postgres.load_data. now rewrite Hpw.
Qed.

(** A run of the PostgreSQL script that goes through: for distinct
    tickers, after a download that is not empty and a transformation that
    did not fail, with a password, a server that accepts the connection and
    tickers of at most ten characters, the table named on the command line
    (or in [config]) holds exactly the transformed records, in the order of
    the frame and numbered from 1, whatever it held before; files are not
    touched. *)
Theorem postgres_main_loads_transformed (cl : CommandLine)
    (env : gmap string string) (w : World) (data : CloseData)
    (out : list ReturnRecord) :
  let args := etl_yfinance_postgres.get_args cl env in
  let table := etl_yfinance_postgres.table_name args in
  List.NoDup (etl_yfinance_postgres.tickers args) ->
  yf_download (etl_yfinance_postgres.tickers args)
              (etl_yfinance_postgres.start_date args)
              (etl_yfinance_postgres.end_date args) = Ok data ->
  data_empty data = false ->
  transform_data pad data (etl_yfinance_postgres.tickers args) = Some out ->
  etl_yfinance_postgres.db_password args <> ""%string ->
  etl_yfinance_postgres.plain_identifier table = true ->
  accepts (etl_yfinance_postgres.db_uri
             (etl_yfinance_postgres.db_user args)
             (etl_yfinance_postgres.db_password args)
             (etl_yfinance_postgres.db_host args)
             (etl_yfinance_postgres.db_name args)
             (etl_yfinance_postgres.sslmode args)) = true ->
  Forall (fun r => (String.length (ticker r) <= 10)%nat) out ->
  let w' := etl_yfinance_postgres.main pad yf_download accepts cl env w in
  files w' = files w /\
  exists rows,
    database w' !! table = Some (mkTable rows (1 + length out)) /\
    map row_record rows = out /\
    map row_id rows = seq 1 (length out).
Proof.
  cbv zeta. intros _ Hd He Ht Hpw _ Hacc Hlen.
  assert (Hfit : forallb etl_yfinance_postgres.fits_varchar10 out = true).
  { apply forallb_forall. intros r Hr. rewrite List.Forall_forall in Hlen.
    apply Nat.leb_le. now apply Hlen. }
  unfold etl_yfinance_postgres.main, extract_data.
  rewrite Hd, He, Ht.
  rewrite (load_data_loaded out _ _ _ _ _ _ w Hpw Hacc Hfit).
  cbn [files database]. split; [reflexivity|].
  eexists. rewrite lookup_insert_eq. split; [reflexivity|].
  apply number_rows_records.
Qed.

End PostgresFacts.

Section ReportFacts.

Variable sqrtQ : Q -> Q.
Variable can_write : string -> bool.

(** How the report script ends.  Without the CSV it stops quietly and
    changes nothing.  With a CSV that has rows, whose tickers are read
    back as written ([csv_plain_ticker]) and in which no (date, ticker)
    pair occurs twice, it writes the report to its fixed path and changes
    nothing else; if that path cannot be opened the error escapes.  With a
    repeated pair the ValueError of [pivot] escapes and nothing is
    written. *)
Theorem report_run_outcome (w : World) :
  let csv := "rendimientos_diarios.csv"%string in
  let html := "/home/fo5/Escritorio/analisis_nvda_qqq.html"%string in
  (files w !! csv = None ->
     analysis_and_report.run sqrtQ can_write w = analysis_and_report.Completed w) /\
  (forall table, files w !! csv = Some (CsvFile table) -> table <> [] ->
     Forall (fun r => csv_plain_ticker (ticker r) = true) table ->
     (List.NoDup (map cell_key table) -> can_write html = true ->
        exists report df_pivot,
          pivot table = Ok df_pivot /\
          r_cumulative report = df_cumulative df_pivot /\
          r_volatility report = annualized_volatility_of sqrtQ table /\
          analysis_and_report.run sqrtQ can_write w =
            analysis_and_report.Completed
              (mkWorld (<[html := HtmlFile report]> (files w)) (database w))) /\
     (List.NoDup (map cell_key table) -> can_write html = false ->
        analysis_and_report.run sqrtQ can_write w =
          analysis_and_report.UncaughtOSError) /\
     (~ List.NoDup (map cell_key table) ->
        analysis_and_report.run sqrtQ can_write w =
          analysis_and_report.Uncaught ValueError)).
Proof.
  cbv zeta. unfold analysis_and_report.run. split.
  - intros ->. reflexivity.
  - intros table -> _ _.
    assert (Hh : ({[ 1%positive := mkLong table ∅ ]} : gmap positive LongFrame)
                   !! 1%positive = Some (mkLong table ∅))
      by apply lookup_singleton_eq.
    split; [|split].
    + intros Hn Hw. pose proof Hn as Hd. apply has_duplicate_cell_NoDup in Hd.
      assert (Hp : pivot table = Ok (mkWide (dates_in table)
                 (map (fun t => (t, map (fun d => cell d t table) (dates_in table)))
                      (tickers_of table))))
        by (unfold pivot; now rewrite Hd).
      rewrite (main_ok sqrtQ _ _ _ _ Hh Hp).
      unfold analysis_and_report.generate_html_report. rewrite Hw.
      eexists (mkReport _ _ _ _ _ _), _.
      split; [exact Hp|]. split; [reflexivity|]. split; reflexivity.
    + intros Hn Hw.
      destruct (proj1 (main_raises_on_duplicate_cell sqrtQ _ _ _ Hh) Hn) as [r Hr].
      rewrite Hr. unfold analysis_and_report.generate_html_report. now rewrite Hw.
    + intros Hn.
      now rewrite (proj2 (main_raises_on_duplicate_cell sqrtQ _ _ _ Hh) Hn).
Qed.

(** The two scripts fit together: after a run of the CSV script that
    wrote a file with rows, for distinct tickers that are read back as
    written ([csv_plain_ticker]) and a price table with distinct dates,
    the report script finds the file, raises nothing and writes the
    report; the CSV is still there. *)
Theorem etl_then_report (pad : bool)
    (yf_download : list string -> string -> string -> result CloseData)
    (cl : CommandLine) (w : World) (data : CloseData) (out : list ReturnRecord) :
  let tickers := default config.TICKERS (cl_tickers cl) in
  let csv := "rendimientos_diarios.csv"%string in
  let html := "/home/fo5/Escritorio/analisis_nvda_qqq.html"%string in
  yf_download tickers (default config.START_DATE (cl_start_date cl))
              (default config.END_DATE (cl_end_date cl)) = Ok data ->
  data_empty data = false ->
  transform_data pad data tickers = Some out ->
  out <> [] ->
  Forall (fun r => csv_plain_ticker (ticker r) = true) out ->
  List.NoDup tickers ->
  List.NoDup (close_index data) ->
  can_write csv = true ->
  can_write html = true ->
  exists report w2,
    analysis_and_report.run sqrtQ can_write
      (etl_to_csv.main pad yf_download can_write cl w) =
      analysis_and_report.Completed w2 /\
    files w2 !! html = Some (HtmlFile report) /\
    files w2 !! csv = Some (CsvFile out) /\
    r_volatility report = annualized_volatility_of sqrtQ out /\
    database w2 = database w.
Proof.
  cbv zeta. intros Hd He Ht _ _ Hnd Hidx Hcsv Hhtml.
  unfold etl_to_csv.main, etl_to_csv.get_args, extract_data,
    etl_to_csv.save_to_csv. simpl.
  rewrite Hd, He, Ht, Hcsv.
  unfold analysis_and_report.run. simpl. rewrite lookup_insert_eq.
  pose proof (transform_keys_NoDup _ _ _ _ Hnd Hidx Ht) as Hk.
  apply has_duplicate_cell_NoDup in Hk.
  assert (Hh : ({[ 1%positive := mkLong out ∅ ]} : gmap positive LongFrame)
                 !! 1%positive = Some (mkLong out ∅))
    by apply lookup_singleton_eq.
  assert (Hp : pivot out = Ok (mkWide (dates_in out)
             (map (fun t => (t, map (fun d => cell d t out) (dates_in out)))
                  (tickers_of out))))
    by (unfold pivot; now rewrite Hk).
  rewrite (main_ok sqrtQ _ _ _ _ Hh Hp).
  unfold analysis_and_report.generate_html_report. rewrite Hhtml.
  eexists (mkReport _ _ _ _ _ _), _. split; [reflexivity|]. cbn [files database].
  rewrite lookup_insert_eq, lookup_insert_ne by discriminate.
  rewrite lookup_insert_eq. repeat split; reflexivity.
Qed.

End ReportFacts.

(** * Checks of the further properties on worked inputs *)

Lemma tickers_AB_NoDup : List.NoDup ["A"; "B"]%string.
Proof. repeat constructor; simpl; intuition discriminate. Qed.

Lemma dates_123_NoDup : List.NoDup [1; 2; 3]%Z.
Proof. repeat constructor; simpl; intuition discriminate. Qed.

Lemma dates_123_sorted : StronglySorted Z.lt [1; 2; 3]%Z.
Proof. repeat constructor; lia. Qed.

(** The rows of the CSV read backwards give the same pivot. *)
Lemma pivot_row_order_witness :
  pivot (rev returns_two_tickers) = pivot returns_two_tickers.
Proof. symmetry. apply pivot_row_order. apply Permutation_rev. Defined.

(** B on date 2 is read back; B on date 1, which no record fills, is NaN. *)
Lemma pivot_cell_roundtrip_witness :
  exists p,
    pivot returns_late_B = Ok p /\
    lookup_cell p 2%Z "B" = fl 1 2 /\
    lookup_cell p 1%Z "B" = NaN.
Proof.
  eexists. split; [reflexivity|].
  destruct (pivot_cell_roundtrip returns_late_B _ eq_refl) as [Hin Hout]. split.
  - apply (Hin (mkRecord 2%Z "B" (fl 1 2))). simpl. auto.
  - apply Hout. simpl. intuition discriminate.
Defined.

Lemma pivot_axes_witness :
  exists p,
    pivot returns_late_B = Ok p /\
    StronglySorted Z.lt (index p) /\
    StronglySorted string_lt (column_names p) /\
    wf_frame p.
Proof.
  eexists. split; [reflexivity|].
  destruct (pivot_axes returns_late_B _ eq_refl) as (H1 & _ & H3 & _ & H5).
  repeat split; assumption.
Defined.

Lemma transform_output_defined_witness :
  exists out,
    transform_data true prices_late_listing ["A"; "B"]%string = Some out /\
    Forall (fun r => isnan (daily_return r) = false) out.
Proof.
  eexists. split; [reflexivity|].
  apply (transform_output_defined true prices_late_listing ["A"; "B"]%string).
  reflexivity.
Defined.

Lemma transform_count_bound_witness :
  exists out,
    transform_data true prices_late_listing ["A"; "B"]%string = Some out /\
    (length (records_of "A" out) <= length (close_index prices_late_listing) - 1)%nat.
Proof.
  eexists. split; [reflexivity|].
  apply (transform_count_bound true prices_late_listing ["A"; "B"]%string).
  - exact tickers_AB_NoDup.
  - reflexivity.
Defined.

(** Two columns: tickers A and B give a table, tickers A, B and C none. *)
Lemma transform_data_none_iff_witness :
  (exists out, transform_data true (CloseFrame prices_full) ["A"; "B"]%string = Some out) /\
  transform_data true (CloseFrame prices_full) ["A"; "B"; "C"]%string = None.
Proof.
  split.
  - apply (transform_data_none_iff true (CloseFrame prices_full) ["A"; "B"]%string).
    + simpl. intuition discriminate.
    + simpl. split; [lia|]. right. apply incl_refl.
  - apply (transform_data_none_iff true (CloseFrame prices_full) ["A"; "B"; "C"]%string).
    + simpl. intuition discriminate.
    + simpl. intros [_ [H|H]]; [discriminate|].
      specialize (H "C"%string). simpl in H. intuition discriminate.
Defined.

(** B is priced 50, 50, 55: its returns are 50/50 - 1 and 55/50 - 1. *)
Lemma transform_returns_are_price_ratios_witness :
  exists out,
    transform_data true (CloseFrame prices_full) ["A"; "B"]%string = Some out /\
    records_of "B" out =
      [mkRecord 2%Z "B" (fq ((50 # 1) / (50 # 1) - 1));
       mkRecord 3%Z "B" (fq ((55 # 1) / (50 # 1) - 1))].
Proof.
  eexists. split; [reflexivity|].
  apply (transform_returns_are_price_ratios true (CloseFrame prices_full)
           ["A"; "B"]%string (DataFrame prices_full) _ "B"%string
           (50 # 1) [50 # 1; 55 # 1]).
  - exact tickers_AB_NoDup.
  - reflexivity.
  - exact prices_full_full.
  - reflexivity.
  - simpl. auto.
  - reflexivity.
Defined.

Lemma transform_output_pivots_witness :
  exists out df_pivot,
    transform_data true prices_late_listing ["A"; "B"]%string = Some out /\
    pivot out = Ok df_pivot.
Proof.
  eexists.
  destruct (transform_output_pivots true prices_late_listing ["A"; "B"]%string _
              tickers_AB_NoDup dates_123_NoDup eq_refl) as [_ [p Hp]].
  exists p. split; [reflexivity|exact Hp].
Defined.

(** Returns 0 and 1/10 of the prices 50, 50, 55 accumulate to 50/50 - 1
    and 55/50 - 1. *)
Lemma df_cumulative_of_price_returns_witness :
  lookup_col "B"
    (columns (df_cumulative
       (mkWide [2; 3]%Z [("B"%string, [fl 0 1; fl 1 10])]))) =
    Some [fq ((50 # 1) / (50 # 1) - 1); fq ((55 # 1) / (50 # 1) - 1)].
Proof.
  apply (df_cumulative_of_price_returns
           (mkWide [2; 3]%Z [("B"%string, [fl 0 1; fl 1 10])]) "B"%string
           (50 # 1) [50 # 1; 55 # 1]).
  - intros H. discriminate H.
  - repeat constructor; intros H; discriminate H.
  - reflexivity.
Defined.

Lemma pipeline_cumulative_return_witness :
  exists out df_pivot,
    transform_data true (CloseFrame prices_full) ["A"; "B"]%string = Some out /\
    pivot out = Ok df_pivot /\
    index df_pivot = [2; 3]%Z /\
    lookup_col "B" (columns (df_cumulative df_pivot)) =
      Some [fq ((50 # 1) / (50 # 1) - 1); fq ((55 # 1) / (50 # 1) - 1)].
Proof.
  eexists.
  destruct (pipeline_cumulative_return true (CloseFrame prices_full)
              ["A"; "B"]%string (DataFrame prices_full) _ "B"%string
              (50 # 1) [50 # 1; 55 # 1]
              tickers_AB_NoDup eq_refl prices_full_full dates_123_sorted eq_refl)
    as (p & Hp & Hi & Hc).
  - simpl. auto.
  - reflexivity.
  - discriminate.
  - exists p. split; [reflexivity|]. repeat split; assumption.
Defined.

Lemma cumulative_returns_single_ticker_witness :
  exists h' f' df_pivot c,
    calculate_cumulative_returns 1%positive (store_of returns_one_ticker) =
      Some (1%positive, h') /\
    h' !! 1%positive = Some f' /\
    extra f' !! "cumulative_return"%string = Some c /\
    pivot returns_one_ticker = Ok df_pivot /\
    lookup_col "A" (columns (df_cumulative df_pivot)) = Some c.
Proof.
  destruct (cumulative_returns_single_ticker (store_of returns_one_ticker)
              1%positive (mkLong returns_one_ticker ∅) "A"%string)
    as (h' & f' & p & c & H1 & H2 & _ & H4 & H5 & _ & H7).
  - reflexivity.
  - discriminate.
  - repeat constructor.
  - repeat constructor; lia.
  - exists h', f', p, c. repeat split; assumption.
Defined.

(** Loading two tickers on two dates into a table that held one row. *)
(** The CSV script on [prices_full]: the file holds the four records. *)
Lemma etl_csv_main_effect_witness :
  exists out,
    files (etl_to_csv.main true download_prices_full permissive options_AB world_empty)
      !! "rendimientos_diarios.csv"%string = Some (CsvFile out) /\
    length out = 4%nat /\
    Forall (fun r => isnan (daily_return r) = false) out.
Proof.
  destruct (etl_csv_main_effect true download_prices_full permissive options_AB
              world_empty tickers_AB_NoDup)
    as (_ & _ & [Hsame | (data & out & Hd & _ & Ht & Hf & Hn & _)]).
  - apply (f_equal (fun w => files w !! "rendimientos_diarios.csv"%string)) in Hsame.
    unfold etl_to_csv.main, etl_to_csv.save_to_csv, world_empty in Hsame.
    simpl in Hsame. rewrite lookup_insert_eq, lookup_empty in Hsame. discriminate.
  - exists out. split; [exact Hf|]. split; [|exact Hn].
    injection Hd as <-. vm_compute in Ht. injection Ht as <-. reflexivity.
Defined.

Lemma load_data_full_refresh_witness :
  exists rows,
    database (etl_yfinance_postgres.load_data permissive returns_two_tickers
                config.DB_HOST config.DB_NAME config.DB_USER config.DB_PASSWORD
                config.TABLE_NAME config.SSL_MODE world_with_table)
      !! config.TABLE_NAME = Some (mkTable rows 5) /\
    map row_record rows = returns_two_tickers /\
    map row_id rows = [1; 2; 3; 4]%nat.
Proof.
  destruct (load_data_full_refresh permissive returns_two_tickers
              config.DB_HOST config.DB_NAME config.DB_USER config.DB_PASSWORD
              config.TABLE_NAME config.SSL_MODE world_with_table)
    as (_ & (rows & Hr) & _).
  - discriminate.
  - reflexivity.
  - reflexivity.
  - reflexivity.
  - exists rows. exact Hr.
Defined.

(** A ticker of twelve characters: the row with id 7 is still there. *)
Lemma load_data_failure_keeps_rows_witness :
  database (etl_yfinance_postgres.load_data permissive returns_long_ticker
              config.DB_HOST config.DB_NAME config.DB_USER config.DB_PASSWORD
              config.TABLE_NAME config.SSL_MODE world_with_table)
    !! config.TABLE_NAME =
  Some (mkTable [mkStored 7 (mkRecord 1%Z "A" (fl 1 10))] 8).
Proof.
  destruct (load_data_failure_keeps_rows permissive returns_long_ticker
              config.DB_HOST config.DB_NAME config.DB_USER config.DB_PASSWORD
              config.TABLE_NAME config.SSL_MODE world_with_table eq_refl)
    as (_ & _ & H).
  destruct (H eq_refl) as (_ & Hkeep & _).
  apply Hkeep. apply lookup_singleton_eq.
Defined.

Lemma postgres_main_empty_password_witness :
  etl_yfinance_postgres.main true download_prices_full permissive
    options_no_password ∅ world_with_table = world_with_table.
Proof.
  apply (postgres_main_empty_password true download_prices_full permissive
           options_no_password ∅ world_with_table).
  left. reflexivity.
Defined.

Lemma postgres_main_loads_transformed_witness :
  exists rows,
    database (etl_yfinance_postgres.main true download_prices_full permissive
                options_AB ∅ world_with_table)
      !! config.TABLE_NAME = Some (mkTable rows 5) /\
    map ticker (map row_record rows) = ["A"; "A"; "B"; "B"]%string /\
    map row_id rows = [1; 2; 3; 4]%nat.
Proof.
  destruct (postgres_main_loads_transformed true download_prices_full permissive
              options_AB ∅ world_with_table (CloseFrame prices_full) _
              tickers_AB_NoDup eq_refl eq_refl eq_refl)
    as (_ & rows & H1 & H2 & H3).
  - discriminate.
  - reflexivity.
  - reflexivity.
  - repeat constructor.
  - exists rows. split; [exact H1|]. split; [|exact H3]. now rewrite H2.
Defined.

(** The CSV of two tickers on two dates: the report is written. *)
Lemma report_run_outcome_witness :
  exists report,
    analysis_and_report.run Qsqrt permissive world_with_csv =
      analysis_and_report.Completed
        (mkWorld (<["/home/fo5/Escritorio/analisis_nvda_qqq.html"%string :=
                     HtmlFile report]> (files world_with_csv))
                 (database world_with_csv)) /\
    r_volatility report = annualized_volatility_of Qsqrt returns_two_tickers.
Proof.
  destruct (proj2 (report_run_outcome Qsqrt permissive world_with_csv)
              returns_two_tickers) as (Hdone & _ & _).
  - apply lookup_singleton_eq.
  - discriminate.
  - repeat constructor.
  - destruct Hdone as (report & p & _ & _ & Hs & Hrun).
    + repeat constructor; simpl; intuition discriminate.
    + reflexivity.
    + exists report. split; assumption.
Defined.

(** The CSV script on [prices_full], then the report script. *)
Lemma etl_then_report_witness :
  exists report w2,
    analysis_and_report.run Qsqrt permissive
      (etl_to_csv.main true download_prices_full permissive options_AB world_empty) =
      analysis_and_report.Completed w2 /\
    files w2 !! "/home/fo5/Escritorio/analisis_nvda_qqq.html"%string =
      Some (HtmlFile report).
Proof.
  destruct (etl_then_report Qsqrt permissive true download_prices_full options_AB
              world_empty (CloseFrame prices_full) _ eq_refl eq_refl eq_refl)
    as (report & w2 & H1 & H2 & _).
  - discriminate.
  - repeat constructor.
  - exact tickers_AB_NoDup.
  - exact dates_123_NoDup.
  - reflexivity.
  - reflexivity.
  - exists report, w2. split; assumption.
Defined.
